(** * ATN graph renderer (src/webview-scripts/ATNGraphRenderer.ts)

    A shallow embedding of the pure parts of the ATN graph renderer: the
    edge clipping geometry, the label flow, the placing of the link labels,
    the initial node pinning, the drag handlers and the part of [render]
    that selects shapes and markers and hands the links to the simulation.

    JavaScript numbers are the rationals extended with the IEEE special
    values [Infinity], [-Infinity] and [NaN], and there are two arithmetics
    on them.  The module [JS] computes exactly: division by zero and the
    special values follow IEEE 754, rounding and overflow are left out.  It
    serves where the rounding does not bear on the result.  The module
    [Double] rounds the result of every operation to the nearest binary64
    number, a tie going to the even one, with overflow to an infinity and
    with the subnormal numbers; the module [Rounded] holds the geometry of
    the renderer and the placing of the link labels computed in it.  The
    sign of zero is modelled in neither. *)

From Stdlib Require Import ZArith QArith Qround Qabs Qpower.
From Stdlib Require Import Bool List String Ascii.
From Stdlib Require Import Lia Lqa.
From Stdlib Require Import DecimalString.
Import ListNotations.

(** ** JavaScript numbers *)

Module JS.

Inductive number : Type :=
| Fin (q : Q)
| PInf
| NInf
| NaN.

Definition finite (a : number) : bool :=
  match a with Fin _ => true | _ => false end.

Definition neg (a : number) : number :=
  match a with
  | Fin q => Fin (- q)
  | PInf => NInf
  | NInf => PInf
  | NaN => NaN
  end.

Definition add (a b : number) : number :=
  match a, b with
  | NaN, _ | _, NaN => NaN
  | Fin p, Fin q => Fin (p + q)
  | PInf, NInf | NInf, PInf => NaN
  | PInf, _ | _, PInf => PInf
  | NInf, _ | _, NInf => NInf
  end.

Definition sub (a b : number) : number := add a (neg b).

(** An infinity of the sign of [q]; [0 * Infinity] is [NaN]. *)
Definition signed_inf (q : Q) (positive : bool) : number :=
  match (q ?= 0)%Q with
  | Eq => NaN
  | Gt => if positive then PInf else NInf
  | Lt => if positive then NInf else PInf
  end.

Definition mul (a b : number) : number :=
  match a, b with
  | NaN, _ | _, NaN => NaN
  | Fin p, Fin q => Fin (p * q)
  | Fin p, PInf | PInf, Fin p => signed_inf p true
  | Fin p, NInf | NInf, Fin p => signed_inf p false
  | PInf, PInf | NInf, NInf => PInf
  | PInf, NInf | NInf, PInf => NInf
  end.

(** [p / 0] is an infinity for [p <> 0] (its sign depends on the sign of the
    zero, which is not modelled: the positive zero is assumed) and [NaN]
    for [0 / 0]. *)
Definition div (a b : number) : number :=
  match a, b with
  | NaN, _ | _, NaN => NaN
  | Fin p, Fin q =>
      if Qeq_bool q 0 then signed_inf p true else Fin (p / q)
  | Fin _, PInf | Fin _, NInf => Fin 0
  | PInf, Fin q => if Qle_bool 0 q then PInf else NInf
  | NInf, Fin q => if Qle_bool 0 q then NInf else PInf
  | PInf, _ | NInf, _ => NaN
  end.

(** [a <= b]; every comparison with [NaN] is false. *)
Definition leb (a b : number) : bool :=
  match a, b with
  | NaN, _ | _, NaN => false
  | Fin p, Fin q => Qle_bool p q
  | NInf, _ | _, PInf => true
  | PInf, _ | _, NInf => false
  end.

Definition geb (a b : number) : bool := leb b a.

(** [a < b] and [a > b]. *)
Definition ltb (a b : number) : bool :=
  match a, b with
  | NaN, _ | _, NaN => false
  | Fin p, Fin q => negb (Qle_bool q p)
  | PInf, _ | _, NInf => false
  | NInf, _ | _, PInf => true
  end.

Definition gtb (a b : number) : bool := ltb b a.

(** [Math.round]: the nearest integer, a tie going up. *)
Definition round (a : number) : number :=
  match a with
  | Fin q => Fin (inject_Z (Qfloor (q + (1 # 2))))
  | _ => a
  end.

(** [Math.ceil]. *)
Definition ceil (a : number) : number :=
  match a with
  | Fin q => Fin (inject_Z (Qceiling q))
  | _ => a
  end.

(** [Math.max] and [Math.min] of two numbers. *)
Definition max (a b : number) : number :=
  match a, b with
  | NaN, _ | _, NaN => NaN
  | _, _ => if leb a b then b else a
  end.

Definition min (a b : number) : number :=
  match a, b with
  | NaN, _ | _, NaN => NaN
  | _, _ => if leb a b then a else b
  end.

Definition of_Z (z : Z) : number := Fin (inject_Z z).

(** Equality of numbers as values: rationals up to [Qeq]. *)
Definition eqv (a b : number) : Prop :=
  match a, b with
  | Fin p, Fin q => (p == q)%Q
  | PInf, PInf | NInf, NInf | NaN, NaN => True
  | _, _ => False
  end.

(** [a ?? d] for an optional number. *)
Definition coalesce (a : option number) (d : number) : number :=
  match a with Some v => v | None => d end.

End JS.

Import JS.

Declare Scope num_scope.
Delimit Scope num_scope with num.
Bind Scope num_scope with number.
Infix "+" := add : num_scope.
Infix "-" := sub : num_scope.
Infix "*" := mul : num_scope.
Infix "/" := div : num_scope.
Notation "- a" := (neg a) : num_scope.
Infix "<=?" := leb : num_scope.
Infix ">=?" := geb : num_scope.
Infix "<?" := ltb : num_scope.
Infix ">?" := gtb : num_scope.
Infix "??" := coalesce (at level 45, left associativity) : num_scope.
Notation "0" := (Fin 0) : num_scope.
Notation "1" := (Fin 1) : num_scope.

(** ** Geometry *)

Record ILine : Type := mkLine {
  x1 : number;
  y1 : number;
  x2 : number;
  y2 : number
}.

Record Point : Type := mkPoint {
  px : number;
  py : number
}.

(** [lineIntersection]: [None] stands for the [undefined] that the function
    returns when it falls off its end. *)
Definition lineIntersection (line1 line2 : ILine) : option Point :=
  let s1X := (x2 line1 - x1 line1)%num in
  let s1Y := (y2 line1 - y1 line1)%num in
  let s2X := (x2 line2 - x1 line2)%num in
  let s2Y := (y2 line2 - y1 line2)%num in
  let s := ((- s1Y * (x1 line1 - x1 line2) + s1X * (y1 line1 - y1 line2))
            / (- s2X * s1Y + s1X * s2Y))%num in
  let t := ((s2X * (y1 line1 - y1 line2) - s2Y * (x1 line1 - x1 line2))
            / (- s2X * s1Y + s1X * s2Y))%num in
  if (s >=? 0)%num && (s <=? 1)%num && (t >=? 0)%num && (t <=? 1)%num then
    Some {| px := (x1 line1 + t * s1X)%num;
            py := (y1 line1 + t * s1Y)%num |}
  else None.

(** ** Graph model *)

(** The state types, a copy of the enumeration of antlr4ts. *)
Module ATNStateType.
Definition INVALID_TYPE : Z := 0.
Definition BASIC : Z := 1.
Definition RULE_START : Z := 2.
Definition BLOCK_START : Z := 3.
Definition PLUS_BLOCK_START : Z := 4.
Definition STAR_BLOCK_START : Z := 5.
Definition TOKEN_START : Z := 6.
Definition RULE_STOP : Z := 7.
Definition BLOCK_END : Z := 8.
Definition STAR_LOOP_BACK : Z := 9.
Definition STAR_LOOP_ENTRY : Z := 10.
Definition PLUS_LOOP_BACK : Z := 11.
Definition LOOP_END : Z := 12.
End ATNStateType.

Definition ATNRuleType : Z := ATNStateType.INVALID_TYPE.

(** A fixed coordinate of d3: absent, [null] or a number. *)
Inductive Pin : Type :=
| PinUndefined
| PinNull
| PinAt (v : number).

(** [!pin]: [undefined], [null], [0] and [NaN] are falsy. *)
Definition pin_falsy (p : Pin) : bool :=
  match p with
  | PinUndefined | PinNull => true
  | PinAt (Fin q) => Qeq_bool q 0
  | PinAt NaN => true
  | PinAt _ => false
  end.

Module Node.
Record t : Type := mk {
  name : string;
  type : Z;
  x : option number;
  y : option number;
  fx : Pin;
  fy : Pin;
  width : option number
}.
Definition set_x (v : option number) (n : t) : t :=
  mk (name n) (type n) v (y n) (fx n) (fy n) (width n).
Definition set_fx (p : Pin) (n : t) : t :=
  mk (name n) (type n) (x n) (y n) p (fy n) (width n).
Definition set_fy (p : Pin) (n : t) : t :=
  mk (name n) (type n) (x n) (y n) (fx n) p (width n).
Definition set_width (v : option number) (n : t) : t :=
  mk (name n) (type n) (x n) (y n) (fx n) (fy n) v.
End Node.

Definition IATNGraphLayoutNode : Type := Node.t.

(** The source or target of a link: an index into the node sequence before
    d3 resolves the links, the node itself afterwards.  (The graph data
    gives the two ends as numbers: [nodes[link.target]] is typed as an
    index.  The type guards also name the string ids of d3, which this
    program does not use.) *)
Inductive NodeRef : Type :=
| RefNumber (i : Z)
| RefNode (n : IATNGraphLayoutNode).

Module Label.
Record t : Type := mk {
  content : string;
  class : option string
}.
End Label.

Module Link.
Record t : Type := mk {
  source : NodeRef;
  target : NodeRef;
  labels : list Label.t
}.
End Link.

Definition IATNLink : Type := Link.t.

Record IATNGraphData : Type := mkGraphData {
  nodes : list IATNGraphLayoutNode;
  links : list IATNLink
}.

Record IATNGraphRendererData : Type := mkRendererData {
  objectName : string;
  maxLabelCount : Z;
  data : IATNGraphData;
  initialScale : number;
  initialTranslation : option number * option number
}.

Definition isATNLayoutNode (r : NodeRef) : bool :=
  match r with RefNode _ => true | _ => false end.

(** ** Edge clipping *)

Definition coordinate (horizontal : bool) (p : Point) : number :=
  if horizontal then px p else py p.

(** [endCoordinate]: the four edges are tried one after the other, and the
    first intersection found is returned. *)
Definition endCoordinate (horizontal : bool) (element : IATNLink) : number :=
  match Link.source element, Link.target element with
  | RefNode source, RefNode target =>
      let center :=
        ((if horizontal then Node.x target else Node.y target) ?? 0)%num in
      if (Node.type target =? ATNRuleType)%Z then
        let sourceX := (Node.x source ?? 0)%num in
        let sourceY := (Node.y source ?? 0)%num in
        let targetX := (Node.x target ?? 0)%num in
        let targetY := (Node.y target ?? 0)%num in
        let targetWidth := (Node.width target ?? 0)%num in
        let line1 := mkLine sourceX sourceY targetX targetY in
        let line2 := mkLine (targetX - targetWidth / Fin 2) (targetY - Fin 25)
                            (targetX + targetWidth / Fin 2) (targetY - Fin 25) in
        match lineIntersection line1 line2 with
        | Some intersection => coordinate horizontal intersection
        | None =>
        let line2 := mkLine (targetX - targetWidth / Fin 2) (targetY + Fin 25)
                            (targetX + targetWidth / Fin 2) (targetY + Fin 25) in
        match lineIntersection line1 line2 with
        | Some intersection => coordinate horizontal intersection
        | None =>
        let line2 := mkLine (targetX - targetWidth / Fin 2) (targetY - Fin 25)
                            (targetX - targetWidth / Fin 2) (targetY + Fin 25) in
        match lineIntersection line1 line2 with
        | Some intersection => coordinate horizontal intersection
        | None =>
        let line2 := mkLine (targetX + targetWidth / Fin 2) (targetY - Fin 25)
                            (targetX + targetWidth / Fin 2) (targetY + Fin 25) in
        match lineIntersection line1 line2 with
        | Some intersection => coordinate horizontal intersection
        | None => center
        end end end end
      else center
  | _, _ => 0%num
  end.

(** The attributes [x1], [y1], [x2], [y2] that [transformLines] gives the
    line of a link.  (It also caches the end point in the fields [endX] and
    [endY] of the target, which nothing reads.) *)
Definition transformLine (link : IATNLink) : ILine :=
  mkLine
    (match Link.source link with
     | RefNode source => (Node.x source ?? 0)%num | _ => 0%num end)
    (match Link.source link with
     | RefNode source => (Node.y source ?? 0)%num | _ => 0%num end)
    (if isATNLayoutNode (Link.target link)
     then endCoordinate true link else 0%num)
    (if isATNLayoutNode (Link.target link)
     then endCoordinate false link else 0%num).

Definition transformLines (ls : list IATNLink) : list ILine :=
  map transformLine ls.

(** ** Label flow *)

Record TSpan : Type := mkSpan {
  span_x : Z;
  span_dy : string;
  span_text : string;
  span_class : option string
}.

(** The decimal text that a template literal gives an integer. *)
Definition Z_toString (z : Z) : string := NilZero.string_of_int (Z.to_int z).

(** [span.classed(label.class, true)] runs when [label.class] is truthy: a
    string that is not empty. *)
Definition truthy_class (c : option string) : option string :=
  match c with
  | Some EmptyString => None
  | other => other
  end.

(** The loop of [appendLinkText] over the labels of one link: [total] is
    [link.labels.length] and [lineNumber] the counter before the step. *)
Fixpoint appendLabels (maxLabelCount total lineNumber : Z)
    (labels : list Label.t) : list TSpan :=
  match labels with
  | [] => []
  | label :: rest =>
      let lineNumber := (lineNumber + 1)%Z in
      let span := mkSpan 0 "1.5em" (Label.content label)
                         (truthy_class (Label.class label)) in
      if (lineNumber =? maxLabelCount)%Z then
        let remainingCount := (total - maxLabelCount)%Z in
        if (remainingCount >? 0)%Z then
          [span;
           mkSpan 0 "1.5em"
             (Z_toString (total - maxLabelCount) ++ " more ...")%string None]
        else [span]
      else span :: appendLabels maxLabelCount total lineNumber rest
  end.

Definition appendLinkText (maxLabelCount : Z) (link : IATNLink) : list TSpan :=
  appendLabels maxLabelCount (Z.of_nat (List.length (Link.labels link))) 0
               (Link.labels link).

(** ** Initial node positions *)

Definition resetNode (node : IATNGraphLayoutNode) : IATNGraphLayoutNode :=
  let node := Node.set_fx PinNull node in
  let node := Node.set_fy PinNull node in
  if (Node.type node =? ATNStateType.RULE_START)%Z then
    let node :=
      match Node.x node with
      | None => Node.set_x (Some (Fin (-1000))) node
      | Some _ => node
      end in
    if pin_falsy (Node.fy node) then Node.set_fy (PinAt 0%num) node else node
  else if (Node.type node =? ATNStateType.RULE_STOP)%Z then
    if pin_falsy (Node.fy node) then Node.set_fy (PinAt 0%num) node else node
  else node.

Definition resetNodePositions (ns : list IATNGraphLayoutNode)
  : list IATNGraphLayoutNode :=
  map resetNode ns.

(** ** View transform and simulation handle

    The zoom transform and the simulation belong to d3.  What the renderer
    relies on is written out here: [scale] and [translate] of a transform,
    and the two settings of a simulation that [dragStarted] touches. *)

Module D3.
Record ZoomTransform : Type := mkTransform {
  k : number;
  x : number;
  y : number
}.
Definition zoomIdentity : ZoomTransform := mkTransform 1%num 0%num 0%num.
Definition scale (t : ZoomTransform) (factor : number) : ZoomTransform :=
  mkTransform (k t * factor)%num (x t) (y t).
Definition translate (t : ZoomTransform) (dx dy : number) : ZoomTransform :=
  mkTransform (k t) (x t + k t * dx)%num (y t + k t * dy)%num.

Record Simulation : Type := mkSimulation {
  alphaTarget : number;
  running : bool
}.
End D3.

(** The renderer object: its data, the size of the svg element when there
    is one, the transform that the zoom behaviour holds for it, and the
    simulation. *)
Record ATNGraphRenderer : Type := mkRenderer {
  this_data : IATNGraphRendererData;
  svg_node : option (Z * Z);
  zoomTransform : D3.ZoomTransform;
  simulation : D3.Simulation
}.

Definition this_nodes (r : ATNGraphRenderer) : list IATNGraphLayoutNode :=
  nodes (data (this_data r)).

Definition with_nodes (ns : list IATNGraphLayoutNode) (r : ATNGraphRenderer)
  : ATNGraphRenderer :=
  let d := this_data r in
  mkRenderer
    (mkRendererData (objectName d) (maxLabelCount d)
       (mkGraphData ns (links (data d))) (initialScale d)
       (initialTranslation d))
    (svg_node r) (zoomTransform r) (simulation r).

Definition with_links (ls : list IATNLink) (r : ATNGraphRenderer)
  : ATNGraphRenderer :=
  let d := this_data r in
  mkRenderer
    (mkRendererData (objectName d) (maxLabelCount d)
       (mkGraphData (nodes (data d)) ls) (initialScale d)
       (initialTranslation d))
    (svg_node r) (zoomTransform r) (simulation r).

Definition with_transform (t : D3.ZoomTransform) (r : ATNGraphRenderer)
  : ATNGraphRenderer :=
  mkRenderer (this_data r) (svg_node r) t (simulation r).

Definition with_simulation (s : D3.Simulation) (r : ATNGraphRenderer)
  : ATNGraphRenderer :=
  mkRenderer (this_data r) (svg_node r) (zoomTransform r) s.

Definition clientWidth (r : ATNGraphRenderer) : option number :=
  option_map (fun size => of_Z (fst size)) (svg_node r).

Definition clientHeight (r : ATNGraphRenderer) : option number :=
  option_map (fun size => of_Z (snd size)) (svg_node r).

(** [resetTransformation]: [zoom.transform] installs the transform it is
    given. *)
Definition resetTransformation (r : ATNGraphRenderer) : ATNGraphRenderer :=
  let d := this_data r in
  let xTranslate :=
    (fst (initialTranslation d) ?? ((clientWidth r ?? 0) / Fin 2))%num in
  let yTranslate :=
    (snd (initialTranslation d) ?? ((clientHeight r ?? 0) / Fin 2))%num in
  let r :=
    with_transform
      (D3.translate (D3.scale D3.zoomIdentity (initialScale d))
                    xTranslate yTranslate) r in
  with_nodes (resetNodePositions (this_nodes r)) r.

(** Modelled from the spec: the zoom behaviour of d3, which is not among the
    sources.  The renderer configures it with [scaleExtent([0.15, 3])]; a
    zoom or pan gesture asks for the current scale times a factor and a new
    translation, and the scale it gets is clamped to the extent. *)
Definition scaleExtent : number * number := (Fin (15 # 100), Fin 3).

Record ZoomGesture : Type := mkGesture {
  factor : Q;
  to_x : Q;
  to_y : Q
}.

Definition zoomed (t : D3.ZoomTransform) (g : ZoomGesture) : D3.ZoomTransform :=
  D3.mkTransform
    (JS.max (fst scaleExtent)
            (JS.min (snd scaleExtent) (D3.k t * Fin (factor g))%num))
    (Fin (to_x g)) (Fin (to_y g)).

Definition zoomGestures (t : D3.ZoomTransform) (gs : list ZoomGesture)
  : D3.ZoomTransform :=
  fold_left zoomed gs t.

(** ** Dragging *)

Definition gridSize : number := Fin 20.

Definition snapToGrid (value : number) : number :=
  (round (value / gridSize) * gridSize)%num.

Module DragEvent.
Record t : Type := mk {
  active : Z;
  x : number;
  y : number;
  subject : nat
}.
End DragEvent.

Definition ATNGraphDragEvent : Type := DragEvent.t.

(** The subject of a drag event is one of the nodes of the renderer: it is
    named by its position in the node sequence and updated in place. *)
Fixpoint update_node (i : nat) (f : IATNGraphLayoutNode -> IATNGraphLayoutNode)
    (ns : list IATNGraphLayoutNode) : list IATNGraphLayoutNode :=
  match ns, i with
  | [], _ => []
  | n :: rest, O => f n :: rest
  | n :: rest, S j => n :: update_node j f rest
  end.

Definition dragStarted (r : ATNGraphRenderer) (e : ATNGraphDragEvent)
  : ATNGraphRenderer :=
  let r :=
    if (DragEvent.active e =? 0)%Z
    then with_simulation (D3.mkSimulation (Fin (3 # 10)) true) r
    else r in
  with_nodes
    (update_node (DragEvent.subject e)
       (fun n => Node.set_fy (PinAt (DragEvent.y e))
                   (Node.set_fx (PinAt (DragEvent.x e)) n))
       (this_nodes r)) r.

Definition dragged (r : ATNGraphRenderer) (e : ATNGraphDragEvent)
  : ATNGraphRenderer :=
  with_nodes
    (update_node (DragEvent.subject e)
       (fun n => Node.set_fy (PinAt (snapToGrid (DragEvent.y e)))
                   (Node.set_fx (PinAt (snapToGrid (DragEvent.x e))) n))
       (this_nodes r)) r.

Definition doubleClicked (node : IATNGraphLayoutNode) : IATNGraphLayoutNode :=
  Node.set_fy PinUndefined (Node.set_fx PinUndefined node).

(** A drag gesture on one node: the start event, then the move events. *)
Definition dragSequence (r : ATNGraphRenderer) (start : ATNGraphDragEvent)
    (moves : list ATNGraphDragEvent) : ATNGraphRenderer :=
  fold_left dragged moves (dragStarted r start).

(** ** Placing the figures *)

(** The two numbers that [transform] and [snapTransform] put into the text
    [translate(x,y)] of a node.  (How a number is printed is not
    modelled.) *)
Definition transform (node : IATNGraphLayoutNode) : number * number :=
  ((Node.x node ?? 0)%num, (Node.y node ?? 0)%num).

Definition snapTransform (node : IATNGraphLayoutNode) : number * number :=
  (snapToGrid (Node.x node ?? 0)%num, snapToGrid (Node.y node ?? 0)%num).

Definition isSimulationNodeDatum (r : NodeRef) : bool :=
  match r with RefNode _ => true | _ => false end.

(** [if (width)] for an optional number: [undefined], [0] and [NaN] are
    falsy. *)
Definition width_truthy (w : option number) : bool :=
  match w with
  | None => false
  | Some (Fin q) => negb (Qeq_bool q 0)
  | Some NaN => false
  | Some _ => true
  end.

(** The numbers of the text
    [translate(x, y) rotate(r) translate(xOffset, yOffset)] that
    [transformLinkLabels] gives the label of a link.  (How a number is
    printed is not modelled.) *)
Record LabelTransform : Type := mkLabelTransform {
  anchor : number * number;
  rotate : number;
  offset : number * number
}.

(** ** Rendering *)

Definition nl : string := String (ascii_of_nat 10) EmptyString.

Record StateTypeInfo : Type := mkInfo {
  short : string;
  long : string
}.

Definition stateType : list StateTypeInfo :=
  [ mkInfo "RULE"
      ("Rule call" ++ nl ++
       "This is not a real ATN state but a placeholder to indicate a sub rule being 'called' by " ++
       "the rule transition.");
    mkInfo "BASIC" "Basic state";
    mkInfo "START" ("Rule start" ++ nl ++ "The entry node of a rule.");
    mkInfo "BSTART"
      ("Block start state" ++ nl ++ "The start of a regular (...) block.");
    mkInfo "PBSTART"
      ("Plus block start state" ++ nl ++
       "Start of the actual block in a (A|b|...)+ loop.");
    mkInfo "SBSTART"
      ("Star block start" ++ nl ++
       "Start of the actual block in a (A|b|...)* loop.");
    mkInfo "TSTART" ("Token start" ++ nl ++ "The entry state of a rule.");
    mkInfo "STOP" ("Rule stop" ++ nl ++ "The exit state of a rule.");
    mkInfo "BEND"
      ("Block end" ++ nl ++ "Terminal node of a simple (A|b|...) block.");
    mkInfo "SLBACK"
      ("Star loop back" ++ nl ++
       "The loop back state from the inner block to the star loop entry state.");
    mkInfo "SLENTRY"
      ("Star loop entry" ++ nl ++ "Entry + exit state for (A|B|...)* loops.");
    mkInfo "PLBACK"
      ("Plus loop back" ++ nl ++
       "The loop back state from the inner block to the plus block start state.");
    mkInfo "LEND" ("Loop end" ++ nl ++ "Marks the end of a * or + loop.")
  ]%string.

(** A statement either completes or throws. *)
Inductive Exception : Type :=
| TypeError (message : string)
| Error (message : string).

Inductive Completion (A : Type) : Type :=
| Normal (a : A)
| Throw (e : Exception).

Arguments Normal {A} a.
Arguments Throw {A} e.

Definition bind {A B : Type} (c : Completion A) (f : A -> Completion B)
  : Completion B :=
  match c with
  | Normal a => f a
  | Throw e => Throw e
  end.

Notation "x <- c ;; f" := (bind c (fun x => f))
  (at level 61, c at next level, right associativity).

Fixpoint forEach {A B : Type} (f : A -> Completion B) (l : list A)
  : Completion (list B) :=
  match l with
  | [] => Normal []
  | a :: rest =>
      b <- f a ;;
      bs <- forEach f rest ;;
      Normal (b :: bs)
  end.

(** [array[i]] for a number [i]: [undefined] outside the array. *)
Definition element {A : Type} (array : list A) (i : Z) : option A :=
  if (i <? 0)%Z then None else nth_error array (Z.to_nat i).

(** [array[ref]]: a node names no element. *)
Definition element_at {A : Type} (array : list A) (r : NodeRef) : option A :=
  match r with
  | RefNumber i => element array i
  | RefNode _ => None
  end.

(** [object.property]: reading a property of [undefined] throws. *)
Definition property {A B : Type} (object : option A) (get : A -> B)
    (property_name : string) : Completion B :=
  match object with
  | Some o => Normal (get o)
  | None =>
      Throw (TypeError ("Cannot read properties of undefined (reading '" ++
                        property_name ++ "')")%string)
  end.

Inductive Shape : Type :=
| Rect (width height y rx ry : Z)
| Circle (r : Z).

Record Figure : Type := mkFigure {
  shape : Shape;
  cssClass : string;
  title : string
}.

(** The value of [marker-end] for the line of a link. *)
Definition markerEnd (ns : list IATNGraphLayoutNode) (link : IATNLink)
  : Completion string :=
  type <- property (element_at ns (Link.target link)) Node.type "type" ;;
  if (type =? ATNRuleType)%Z
  then Normal "url(#transitionEndRect)"%string
  else Normal "url(#transitionEndCircle)"%string.

(** One round of the loop over the nodes that appends their figures. *)
Definition renderFigure (objectName : string) (figure : IATNGraphLayoutNode)
  : Completion Figure :=
  short_name <- property (element stateType (Node.type figure)) short "short" ;;
  let cssClass := ("state " ++ short_name)%string in
  let recursive := String.eqb (Node.name figure) objectName in
  let cssClass :=
    if recursive then (cssClass ++ " recursive")%string else cssClass in
  let element_shape :=
    if (Node.type figure =? ATNRuleType)%Z
    then Rect 50 50 (-25) 5 (if recursive then 20 else 5)
    else Circle 30 in
  long_name <- property (element stateType (Node.type figure)) long "long" ;;
  Normal (mkFigure element_shape cssClass long_name).

(** The rectangle of a rule node is resized to its label, whose length the
    browser measures. *)
Definition resizeRect (getComputedTextLength : string -> number)
    (node : IATNGraphLayoutNode) : IATNGraphLayoutNode :=
  if (Node.type node =? ATNRuleType)%Z then
    let width := ceil (getComputedTextLength (Node.name node)) in
    let width := if (width <? Fin 70)%num then Fin 70 else width in
    let width := (width + Fin 20)%num in
    Node.set_width (Some width) node
  else node.

Definition description (node : IATNGraphLayoutNode) : Completion string :=
  property (element stateType (Node.type node)) short "short".

Record Scene : Type := mkScene {
  lines : list string;
  figures : list Figure;
  text : list string;
  descriptions : list string;
  linkLabels : list (list TSpan)
}.

(** What [d3.forceLink(links)] does when the simulation takes it in: d3 is
    not among the sources, and this follows its documentation.  Every end of
    a link that is not yet a node is looked up by its index among the
    nodes, the source first, and replaced by the node that it names; a
    missing node is an error. *)
Definition find (ns : list IATNGraphLayoutNode) (nodeId : Z)
  : Completion IATNGraphLayoutNode :=
  match element ns nodeId with
  | Some node => Normal node
  | None => Throw (Error ("node not found: " ++ Z_toString nodeId)%string)
  end.

Definition resolve (ns : list IATNGraphLayoutNode) (r : NodeRef)
  : Completion IATNGraphLayoutNode :=
  match r with
  | RefNode node => Normal node
  | RefNumber nodeId => find ns nodeId
  end.

Definition initializeLink (ns : list IATNGraphLayoutNode) (link : IATNLink)
  : Completion IATNLink :=
  source <- resolve ns (Link.source link) ;;
  target <- resolve ns (Link.target link) ;;
  Normal (Link.mk (RefNode source) (RefNode target) (Link.labels link)).

Definition forceLink (ns : list IATNGraphLayoutNode) (ls : list IATNLink)
  : Completion (list IATNLink) :=
  forEach (initializeLink ns) ls.

(** [render] up to the start of the force simulation: what it draws before
    the layout, and the look-up of the ends of the links that
    [d3.forceLink] makes when the simulation is set up, which leaves the
    links of the graph with nodes at their two ends.  The positions that the
    simulation then computes are not modelled: the result is the renderer
    and the scene as they are when the simulation starts. *)
Definition render (getComputedTextLength : string -> number)
    (r : ATNGraphRenderer) : Completion (ATNGraphRenderer * Scene) :=
  let r := resetTransformation r in
  let ns := this_nodes r in
  let ls := links (data (this_data r)) in
  lines <- forEach (markerEnd ns) ls ;;
  figures <- forEach (renderFigure (objectName (this_data r))) ns ;;
  let text := map Node.name ns in
  let ns := map (resizeRect getComputedTextLength) ns in
  descriptions <- forEach description ns ;;
  let linkLabels := map (appendLinkText (maxLabelCount (this_data r))) ls in
  resolved <- forceLink ns ls ;;
  Normal (with_links resolved (with_nodes ns r),
          mkScene lines figures text descriptions linkLabels).

(** ** Vocabulary of the statements *)

(** The point [p] lies on the segment [l]: it is the start of [l] moved by
    [u] times the direction of [l], for a [u] between 0 and 1. *)
Definition on_segment (l : ILine) (p : Point) (u : Q) : Prop :=
  exists a1 b1 a2 b2 a b,
    l = mkLine (Fin a1) (Fin b1) (Fin a2) (Fin b2) /\
    p = mkPoint (Fin a) (Fin b) /\
    (0 <= u <= 1)%Q /\
    (a == a1 + u * (a2 - a1))%Q /\
    (b == b1 + u * (b2 - b1))%Q.

Definition finite_line (l : ILine) : bool :=
  finite (x1 l) && finite (y1 l) && finite (x2 l) && finite (y2 l).

Definition finite_point (p : Point) : bool :=
  finite (px p) && finite (py p).

Definition centerLine (source target : IATNGraphLayoutNode) : ILine :=
  mkLine (Node.x source ?? 0)%num (Node.y source ?? 0)%num
         (Node.x target ?? 0)%num (Node.y target ?? 0)%num.

Definition targetCenter (target : IATNGraphLayoutNode) : Point :=
  mkPoint (Node.x target ?? 0)%num (Node.y target ?? 0)%num.

(** The four edges of the rectangle of [target], in the order in which
    [endCoordinate] tries them. *)
Definition rectEdges (target : IATNGraphLayoutNode) : list ILine :=
  let targetX := (Node.x target ?? 0)%num in
  let targetY := (Node.y target ?? 0)%num in
  let half := ((Node.width target ?? 0) / Fin 2)%num in
  [ mkLine (targetX - half) (targetY - Fin 25) (targetX + half) (targetY - Fin 25);
    mkLine (targetX - half) (targetY + Fin 25) (targetX + half) (targetY + Fin 25);
    mkLine (targetX - half) (targetY - Fin 25) (targetX - half) (targetY + Fin 25);
    mkLine (targetX + half) (targetY - Fin 25) (targetX + half) (targetY + Fin 25)
  ]%num.

(** The end point of the line of a link, from the two calls that
    [transformLines] makes. *)
Definition clipPoint (link : IATNLink) : Point :=
  mkPoint (endCoordinate true link) (endCoordinate false link).

Fixpoint firstIntersection (line1 : ILine) (edges : list ILine)
  : option Point :=
  match edges with
  | [] => None
  | edge :: rest =>
      match lineIntersection line1 edge with
      | Some p => Some p
      | None => firstIntersection line1 rest
      end
  end.

(** The line that [appendLinkText] appends for a label, and the line it
    appends for [count] labels left out. *)
Definition labelSpan (label : Label.t) : TSpan :=
  mkSpan 0 "1.5em" (Label.content label) (truthy_class (Label.class label)).

Definition summarySpan (count : Z) : TSpan :=
  mkSpan 0 "1.5em" (Z_toString count ++ " more ...")%string None.

(** The scale of a transform lies within the scale extent. *)
Definition in_scaleExtent (t : D3.ZoomTransform) : Prop :=
  exists q, D3.k t = Fin q /\ (15 # 100 <= q <= 3)%Q.

(** A pin at a multiple of the grid size. *)
Definition on_grid (p : Pin) : Prop :=
  exists (n : Z) (q : Q), p = PinAt (Fin q) /\ (q == inject_Z n * 20)%Q.

(** The state type is one of the 13 entries of [stateType]. *)
Definition known_type (node : IATNGraphLayoutNode) : Prop :=
  (0 <= Node.type node <= 12)%Z.




(** What a node is apart from its two pins. *)
Definition unpinned (node : IATNGraphLayoutNode)
  : string * Z * option number * option number * option number :=
  (Node.name node, Node.type node, Node.x node, Node.y node, Node.width node).

(** ** Binary64 arithmetic *)

Module Double.

(** [2 ^ e] for an integer [e]. *)
Definition pow2 (e : Z) : Q :=
  match e with
  | Z0 => 1
  | Zpos p => inject_Z (2 ^ Zpos p)
  | Zneg p => 1 # (2 ^ p)
  end.

(** The integer [e] with [2 ^ e <= q < 2 ^ (e + 1)], for a positive [q]. *)
Definition ilog2 (q : Q) : Z :=
  let e := (Z.log2 (Qnum q) - Z.log2 (Zpos (Qden q)))%Z in
  if Qle_bool (pow2 e) q then e else (e - 1)%Z.

(** The nearest integer, a tie going to the even one. *)
Definition rint (q : Q) : Z :=
  let f := Qfloor q in
  match (q - inject_Z f ?= 1 # 2)%Q with
  | Lt => f
  | Gt => (f + 1)%Z
  | Eq => if Z.even f then f else (f + 1)%Z
  end.

(** The binary64 number nearest to [q]: 53 bits, the smallest exponent of a
    unit in the last place -1074, and an infinity from [2 ^ 1024] on. *)
Definition rnd (q : Q) : number :=
  if Qeq_bool q 0 then Fin 0 else
  let e := ilog2 (Qabs q) in
  let k := Z.max (e - 52) (-1074) in
  let r := Qred (inject_Z (rint (q / pow2 k)) * pow2 k) in
  if Qle_bool (pow2 1024) (Qabs r)
  then (if Qle_bool 0 q then PInf else NInf)
  else Fin r.

Definition rn (a : number) : number :=
  match a with
  | Fin q => rnd q
  | _ => a
  end.

Definition add (a b : number) : number := rn (JS.add a b).
Definition sub (a b : number) : number := rn (JS.sub a b).
Definition mul (a b : number) : number := rn (JS.mul a b).
Definition div (a b : number) : number := rn (JS.div a b).

(** The number that the decimal literal [n / 10 ^ d] denotes. *)
Definition dec (n : Z) (d : positive) : number := rnd (n # (10 ^ d)).

(** [Math.PI]. *)
Definition PI : number := Fin (884279719003555 # 281474976710656).

(** The exponent of the unit in the last place of a [q] other than 0. *)
Definition ulp_exp (q : Q) : Z := Z.max (ilog2 (Qabs q) - 52) (-1074).

End Double.

Infix "+^" := Double.add (at level 50, left associativity).
Infix "-^" := Double.sub (at level 50, left associativity).
Infix "*^" := Double.mul (at level 40, left associativity).
Infix "/^" := Double.div (at level 40, left associativity).

(** ** The geometry in binary64 arithmetic *)

Module Rounded.

(** The two parameters that [lineIntersection] computes, and the point that
    it returns for the parameter [t]. *)
Definition paramS (line1 line2 : ILine) : number :=
  let s1X := x2 line1 -^ x1 line1 in
  let s1Y := y2 line1 -^ y1 line1 in
  let s2X := x2 line2 -^ x1 line2 in
  let s2Y := y2 line2 -^ y1 line2 in
  (neg s1Y *^ (x1 line1 -^ x1 line2) +^ s1X *^ (y1 line1 -^ y1 line2))
  /^ (neg s2X *^ s1Y +^ s1X *^ s2Y).

Definition paramT (line1 line2 : ILine) : number :=
  let s1X := x2 line1 -^ x1 line1 in
  let s1Y := y2 line1 -^ y1 line1 in
  let s2X := x2 line2 -^ x1 line2 in
  let s2Y := y2 line2 -^ y1 line2 in
  (s2X *^ (y1 line1 -^ y1 line2) -^ s2Y *^ (x1 line1 -^ x1 line2))
  /^ (neg s2X *^ s1Y +^ s1X *^ s2Y).

Definition pointAt (line1 : ILine) (t : number) : Point :=
  {| px := x1 line1 +^ t *^ (x2 line1 -^ x1 line1);
     py := y1 line1 +^ t *^ (y2 line1 -^ y1 line1) |}.

Definition lineIntersection (line1 line2 : ILine) : option Point :=
  let s1X := x2 line1 -^ x1 line1 in
  let s1Y := y2 line1 -^ y1 line1 in
  let s2X := x2 line2 -^ x1 line2 in
  let s2Y := y2 line2 -^ y1 line2 in
  let s := (neg s1Y *^ (x1 line1 -^ x1 line2) +^ s1X *^ (y1 line1 -^ y1 line2))
           /^ (neg s2X *^ s1Y +^ s1X *^ s2Y) in
  let t := (s2X *^ (y1 line1 -^ y1 line2) -^ s2Y *^ (x1 line1 -^ x1 line2))
           /^ (neg s2X *^ s1Y +^ s1X *^ s2Y) in
  if geb s (Fin 0) && leb s (Fin 1) && geb t (Fin 0) && leb t (Fin 1) then
    Some {| px := x1 line1 +^ t *^ s1X;
            py := y1 line1 +^ t *^ s1Y |}
  else None.

Definition endCoordinate (horizontal : bool) (element : IATNLink) : number :=
  match Link.source element, Link.target element with
  | RefNode source, RefNode target =>
      let center :=
        coalesce (if horizontal then Node.x target else Node.y target) (Fin 0) in
      if (Node.type target =? ATNRuleType)%Z then
        let sourceX := coalesce (Node.x source) (Fin 0) in
        let sourceY := coalesce (Node.y source) (Fin 0) in
        let targetX := coalesce (Node.x target) (Fin 0) in
        let targetY := coalesce (Node.y target) (Fin 0) in
        let targetWidth := coalesce (Node.width target) (Fin 0) in
        let line1 := mkLine sourceX sourceY targetX targetY in
        let line2 := mkLine (targetX -^ targetWidth /^ Fin 2) (targetY -^ Fin 25)
                            (targetX +^ targetWidth /^ Fin 2) (targetY -^ Fin 25) in
        match lineIntersection line1 line2 with
        | Some intersection => coordinate horizontal intersection
        | None =>
        let line2 := mkLine (targetX -^ targetWidth /^ Fin 2) (targetY +^ Fin 25)
                            (targetX +^ targetWidth /^ Fin 2) (targetY +^ Fin 25) in
        match lineIntersection line1 line2 with
        | Some intersection => coordinate horizontal intersection
        | None =>
        let line2 := mkLine (targetX -^ targetWidth /^ Fin 2) (targetY -^ Fin 25)
                            (targetX -^ targetWidth /^ Fin 2) (targetY +^ Fin 25) in
        match lineIntersection line1 line2 with
        | Some intersection => coordinate horizontal intersection
        | None =>
        let line2 := mkLine (targetX +^ targetWidth /^ Fin 2) (targetY -^ Fin 25)
                            (targetX +^ targetWidth /^ Fin 2) (targetY +^ Fin 25) in
        match lineIntersection line1 line2 with
        | Some intersection => coordinate horizontal intersection
        | None => center
        end end end end
      else center
  | _, _ => Fin 0
  end.

(** The four edges of the rectangle of [target], in the order in which
    [endCoordinate] tries them, and the end point from its two calls. *)
Definition rectEdges (target : IATNGraphLayoutNode) : list ILine :=
  let targetX := coalesce (Node.x target) (Fin 0) in
  let targetY := coalesce (Node.y target) (Fin 0) in
  let targetWidth := coalesce (Node.width target) (Fin 0) in
  [ mkLine (targetX -^ targetWidth /^ Fin 2) (targetY -^ Fin 25)
           (targetX +^ targetWidth /^ Fin 2) (targetY -^ Fin 25);
    mkLine (targetX -^ targetWidth /^ Fin 2) (targetY +^ Fin 25)
           (targetX +^ targetWidth /^ Fin 2) (targetY +^ Fin 25);
    mkLine (targetX -^ targetWidth /^ Fin 2) (targetY -^ Fin 25)
           (targetX -^ targetWidth /^ Fin 2) (targetY +^ Fin 25);
    mkLine (targetX +^ targetWidth /^ Fin 2) (targetY -^ Fin 25)
           (targetX +^ targetWidth /^ Fin 2) (targetY +^ Fin 25) ].

Definition clipPoint (link : IATNLink) : Point :=
  mkPoint (endCoordinate true link) (endCoordinate false link).

Fixpoint firstIntersection (line1 : ILine) (edges : list ILine)
  : option Point :=
  match edges with
  | [] => None
  | edge :: rest =>
      match lineIntersection line1 edge with
      | Some p => Some p
      | None => firstIntersection line1 rest
      end
  end.

(** The range test of [lineIntersection] on one parameter. *)
Definition in_unit (a : number) : bool := geb a (Fin 0) && leb a (Fin 1).

(** [transformLinkLabels], for one link.  [Math.atan2] is taken as it
    comes. *)
Section LinkLabels.

Variable atan2 : number -> number -> number.

(** The slope of a link in degrees, from the centers of its two nodes. *)
Definition linkSlope (link : IATNLink) : number :=
  let targetY :=
    match Link.target link with
    | RefNode target => coalesce (Node.y target) (Fin 0) | _ => Fin 0 end in
  let sourceY :=
    match Link.source link with
    | RefNode source => coalesce (Node.y source) (Fin 0) | _ => Fin 0 end in
  let sourceX :=
    match Link.source link with
    | RefNode source => coalesce (Node.x source) (Fin 0) | _ => Fin 0 end in
  let targetX :=
    match Link.target link with
    | RefNode target => coalesce (Node.x target) (Fin 0) | _ => Fin 0 end in
  atan2 (targetY -^ sourceY) (targetX -^ sourceX) *^ Fin 180 /^ Double.PI.

(** The three cases of the switch on the slope, and its default: the
    rotation and the offset of the label. *)
Definition labelPlacement (slope : number) : number * (number * number) :=
  if gtb slope (Fin (-45)) && ltb slope (Fin 45) then
    (slope, (Fin 0, Fin 0))
  else if ltb slope (Fin (-135)) || gtb slope (Fin 135) then
    (slope +^ Fin 180, (Fin 10, Fin 0))
  else if geb slope (Fin 45) || leb slope (Fin (-45)) then
    (Fin 0, (Fin 10, Fin (-10)))
  else (Fin 0, (Fin 0, Fin 0)).

Definition transformLinkLabel (link : IATNLink) : LabelTransform :=
  let targetY :=
    match Link.target link with
    | RefNode target => coalesce (Node.y target) (Fin 0) | _ => Fin 0 end in
  let sourceY :=
    match Link.source link with
    | RefNode source => coalesce (Node.y source) (Fin 0) | _ => Fin 0 end in
  let sourceX :=
    match Link.source link with
    | RefNode source => coalesce (Node.x source) (Fin 0) | _ => Fin 0 end in
  let targetX :=
    match Link.target link with
    | RefNode target => coalesce (Node.x target) (Fin 0) | _ => Fin 0 end in
  let slope := linkSlope link in
  let sourceX :=
    match Link.source link with
    | RefNode source =>
        if width_truthy (Node.width source)
        then sourceX +^ coalesce (Node.width source) (Fin 0) /^ Fin 2
        else sourceX +^ Fin 25
    | _ => sourceX
    end in
  let targetX :=
    match Link.target link with
    | RefNode target =>
        if width_truthy (Node.width target)
        then targetX -^ coalesce (Node.width target) (Fin 0) /^ Fin 2
        else targetX -^ Fin 25
    | _ => targetX
    end in
  let placed := labelPlacement slope in
  mkLabelTransform
    ((targetX +^ sourceX) /^ Fin 2, (targetY +^ sourceY) /^ Fin 2)
    (fst placed) (snd placed).

Definition transformLinkLabels (ls : list IATNLink) : list LabelTransform :=
  map transformLinkLabel ls.

End LinkLabels.

(** Half of the width that [transformLinkLabels] takes for the figure of a
    node: half of its [width], or 25 for a circle. *)
Definition halfExtent (node : IATNGraphLayoutNode) : number :=
  if width_truthy (Node.width node)
  then coalesce (Node.width node) (Fin 0) /^ Fin 2
  else Fin 25.

End Rounded.

(** A rule node at [(x, y)] with the width [w], and a basic node at
    [(x, y)]. *)
Definition rule_at (x y w : number) : IATNGraphLayoutNode :=
  Node.mk "rule" ATNRuleType (Some x) (Some y) PinUndefined PinUndefined
          (Some w).

Definition basic_at (x y : number) : IATNGraphLayoutNode :=
  Node.mk "1" ATNStateType.BASIC (Some x) (Some y) PinUndefined PinUndefined
          None.

(** The bound on the error of a coordinate computed from [a] and [b]:
    [2 ^ -50 * (|a| + |b|) + 2 ^ -1073]. *)
Definition rounding_bound (a b : Q) : Q :=
  Double.pow2 (-50) * (Qabs a + Qabs b) + Double.pow2 (-1073).

(** The point [p] is, up to the rounding, the point of the segment [l] at
    the parameter [t]: each of its coordinates that is finite differs from
    the start of [l] moved by [t] times the direction of [l] by no more than
    the bound. *)
Definition near_segment (l : ILine) (t : Q) (p : Point) : Prop :=
  exists a1 b1 a2 b2 : Q,
    l = mkLine (Fin a1) (Fin b1) (Fin a2) (Fin b2) /\
    (forall X : Q, px p = Fin X ->
       Qabs (X - (a1 + t * (a2 - a1))) <= rounding_bound a1 a2)%Q /\
    (forall Y : Q, py p = Fin Y ->
       Qabs (Y - (b1 + t * (b2 - b1))) <= rounding_bound b1 b2)%Q.

(** ** Sample graphs *)

Definition basic_at_origin : IATNGraphLayoutNode :=
  Node.mk "1" ATNStateType.BASIC (Some 0%num) (Some 0%num)
          PinUndefined PinUndefined None.

(** A rule node to the right of the origin, 90 wide. *)
Definition rule_far : IATNGraphLayoutNode :=
  Node.mk "expr" ATNRuleType (Some (Fin 200)) (Some 0%num)
          PinUndefined PinUndefined (Some (Fin 90)).


(** A link with the four labels a, b, c and d. *)
Definition four_labels : IATNLink :=
  Link.mk (RefNumber 0) (RefNumber 1)
    [Label.mk "a" None; Label.mk "b" None; Label.mk "c" None; Label.mk "d" None].

(** A start node that the caller has pinned at y = 50. *)
Definition pinned_start : IATNGraphLayoutNode :=
  Node.mk "0" ATNStateType.RULE_START None None
          PinUndefined (PinAt (Fin 50)) None.

Definition sample_renderer : ATNGraphRenderer :=
  mkRenderer
    (mkRendererData "expr" 3
       (mkGraphData [basic_at_origin; rule_far]
                    [Link.mk (RefNumber 0) (RefNumber 1) [Label.mk "expr" None]])
       1%num (None, None))
    (Some (800, 600)%Z) D3.zoomIdentity (D3.mkSimulation 0%num false).

(** A measure of text that gives every character 8 units. *)
Definition sample_measure (s : string) : number :=
  of_Z (8 * Z.of_nat (String.length s)).

(** A node whose state type is 13, and a graph with it. *)
Definition unknown_node : IATNGraphLayoutNode :=
  Node.mk "2" 13 None None PinUndefined PinUndefined None.

Definition unknown_type_renderer : ATNGraphRenderer :=
  mkRenderer
    (mkRendererData "expr" 3
       (mkGraphData
          [basic_at_origin; unknown_node]
          [])
       1%num (None, None))
    (Some (800, 600)%Z) D3.zoomIdentity (D3.mkSimulation 0%num false).


(** A graph of two nodes with a link from a node 7. *)
Definition dangling_source_renderer : ATNGraphRenderer :=
  mkRenderer
    (mkRendererData "expr" 3
       (mkGraphData [basic_at_origin; rule_far]
                    [Link.mk (RefNumber 7) (RefNumber 1) []])
       1%num (None, None))
    None D3.zoomIdentity (D3.mkSimulation 0%num false).

(** A stop node to the lower right of the origin. *)
Definition stop_right : IATNGraphLayoutNode :=
  Node.mk "3" ATNStateType.RULE_STOP (Some (Fin 100)) (Some (Fin 40))
          PinUndefined PinUndefined None.

(** A stand-in for [Math.atan2] that is right on the positive x axis, where
    the angle is 0; [NaN] stands for the values that the samples do not
    need. *)
Definition axis_atan2 (dy dx : number) : number :=
  match dy, dx with
  | Fin p, Fin q => if Qeq_bool p 0 && negb (Qle_bool q 0) then Fin 0 else NaN
  | _, _ => NaN
  end.

(** * Properties *)

(** ** Numbers: which results are finite *)

Section Finite.

Local Open Scope num_scope.

Lemma finite_neg (a : number) : finite (- a) = finite a.
Proof. destruct a; reflexivity. Qed.

Lemma finite_add (a b : number) : finite (a + b) = finite a && finite b.
Proof. destruct a, b; reflexivity. Qed.

Lemma finite_sub (a b : number) : finite (a - b) = finite a && finite b.
Proof. unfold sub. now rewrite finite_add, finite_neg. Qed.

Lemma finite_signed_inf (q : Q) (positive : bool) :
  finite (signed_inf q positive) = false.
Proof. unfold signed_inf. destruct (q ?= 0)%Q, positive; reflexivity. Qed.

Lemma finite_mul (a b : number) : finite (a * b) = finite a && finite b.
Proof.
  destruct a, b; simpl; try reflexivity; apply finite_signed_inf.
Qed.

Lemma finite_div_numerator (a b : number) :
  finite (a / b) = true -> finite a = true.
Proof.
  destruct a, b; simpl; try reflexivity; try discriminate.
  all: destruct (Qle_bool 0 q); discriminate.
Qed.

Lemma div_Fin (p q : Q) :
  finite (Fin p / Fin q) = true ->
  ~ (q == 0)%Q /\ Fin p / Fin q = Fin (p / q).
Proof.
  simpl. destruct (Qeq_bool q 0) eqn:E.
  - rewrite finite_signed_inf. discriminate.
  - intros _. split; [|reflexivity].
    intro H. apply Qeq_bool_iff in H. congruence.
Qed.

Lemma unit_range (s : number) :
  (s >=? 0) = true -> (s <=? 1) = true ->
  exists q, s = Fin q /\ (0 <= q <= 1)%Q.
Proof.
  destruct s; simpl; try discriminate.
  intros H0 H1. exists q. split; [reflexivity|].
  split; now apply Qle_bool_iff.
Qed.

End Finite.

(** ** Segments *)

Ltac split_finite H :=
  repeat first
    [ rewrite finite_add in H | rewrite finite_sub in H
    | rewrite finite_mul in H | rewrite finite_neg in H ];
  repeat rewrite andb_true_iff in H.

(** What [lineIntersection] has computed when it returns a point: all the
    coordinates are finite, the denominator is not zero, and the point is
    the start of [line1] moved by [t], with [s] and [t] between 0 and 1. *)
Lemma lineIntersection_Some (line1 line2 : ILine) (p : Point) :
  lineIntersection line1 line2 = Some p ->
  exists a1 b1 a2 b2 a3 b3 a4 b4,
    line1 = mkLine (Fin a1) (Fin b1) (Fin a2) (Fin b2) /\
    line2 = mkLine (Fin a3) (Fin b3) (Fin a4) (Fin b4) /\
    let d := (- (a4 - a3) * (b2 - b1) + (a2 - a1) * (b4 - b3))%Q in
    let s := ((- (b2 - b1) * (a1 - a3) + (a2 - a1) * (b1 - b3)) / d)%Q in
    let t := (((a4 - a3) * (b1 - b3) - (b4 - b3) * (a1 - a3)) / d)%Q in
    ~ (d == 0)%Q /\ (0 <= s <= 1)%Q /\ (0 <= t <= 1)%Q /\
    p = mkPoint (Fin (a1 + t * (a2 - a1))) (Fin (b1 + t * (b2 - b1))).
Proof.
  unfold lineIntersection.
  destruct (_ && _) eqn:Htest; [|discriminate].
  intros Hp. injection Hp as Hp.
  repeat rewrite andb_true_iff in Htest.
  destruct Htest as [[[Hs0 Hs1] Ht0] Ht1].
  destruct (unit_range _ Hs0 Hs1) as (qs & Es & Rs).
  destruct (unit_range _ Ht0 Ht1) as (qt & Et & Rt).
  assert (Fs : finite (Fin qs) = true) by reflexivity.
  assert (Ft : finite (Fin qt) = true) by reflexivity.
  rewrite <- Es in Fs. rewrite <- Et in Ft.
  pose proof (finite_div_numerator _ _ Fs) as Fns.
  pose proof (finite_div_numerator _ _ Ft) as Fnt.
  split_finite Fns. split_finite Fnt.
  destruct line1 as [p1 q1 p2 q2], line2 as [p3 q3 p4 q4]; simpl in *.
  destruct Fns as [[[Hq2 Hq1] [Hp1 Hp3]] [[Hp2 _] [_ Hq3]]].
  destruct Fnt as [[[Hp4 _] _] [[Hq4 _] _]].
  destruct p1 as [a1| | |]; try discriminate.
  destruct q1 as [b1| | |]; try discriminate.
  destruct p2 as [a2| | |]; try discriminate.
  destruct q2 as [b2| | |]; try discriminate.
  destruct p3 as [a3| | |]; try discriminate.
  destruct q3 as [b3| | |]; try discriminate.
  destruct p4 as [a4| | |]; try discriminate.
  destruct q4 as [b4| | |]; try discriminate.
  exists a1, b1, a2, b2, a3, b3, a4, b4.
  split; [reflexivity|]. split; [reflexivity|].
  cbv zeta.
  cbn [sub add neg mul] in *.
  destruct (div_Fin _ _ Fs) as [Hd Es'].
  destruct (div_Fin _ _ Ft) as [_ Et'].
  rewrite Es' in Es. rewrite Et' in Et, Hp.
  injection Es as Es. injection Et as Et.
  subst qs qt p.
  split; [exact Hd|].
  split; [exact Rs|].
  split; [exact Rt|].
  reflexivity.
Qed.

(** Segments whose denominator vanishes (parallel segments, and segments of
    length zero) have no intersection point. *)
Lemma lineIntersection_parallel (a1 b1 a2 b2 a3 b3 a4 b4 : Q) :
  (- (a4 - a3) * (b2 - b1) + (a2 - a1) * (b4 - b3) == 0)%Q ->
  lineIntersection (mkLine (Fin a1) (Fin b1) (Fin a2) (Fin b2))
                   (mkLine (Fin a3) (Fin b3) (Fin a4) (Fin b4)) = None.
Proof.
  intros Hd.
  destruct (lineIntersection _ _) as [p|] eqn:E; [|reflexivity].
  apply lineIntersection_Some in E.
  destruct E as (c1 & d1 & c2 & d2 & c3 & d3 & c4 & d4 & E1 & E2 & Hnz & _).
  injection E1 as -> -> -> ->. injection E2 as -> -> -> ->.
  contradiction.
Qed.

Lemma lineIntersection_zero_length_1 (a1 b1 : Q) (line2 : ILine) :
  lineIntersection (mkLine (Fin a1) (Fin b1) (Fin a1) (Fin b1)) line2 = None.
Proof.
  destruct (lineIntersection _ _) as [p|] eqn:E; [|reflexivity].
  apply lineIntersection_Some in E.
  destruct E as (c1 & d1 & c2 & d2 & c3 & d3 & c4 & d4 & E1 & E2 & Hnz & _).
  injection E1 as -> -> Ea Eb. exfalso. apply Hnz.
  rewrite <- Ea, <- Eb. ring.
Qed.

Lemma lineIntersection_zero_length_2 (line1 : ILine) (a3 b3 : Q) :
  lineIntersection line1 (mkLine (Fin a3) (Fin b3) (Fin a3) (Fin b3)) = None.
Proof.
  destruct (lineIntersection _ _) as [p|] eqn:E; [|reflexivity].
  apply lineIntersection_Some in E.
  destruct E as (c1 & d1 & c2 & d2 & c3 & d3 & c4 & d4 & E1 & E2 & Hnz & _).
  injection E2 as -> -> Ea Eb. exfalso. apply Hnz.
  rewrite <- Ea, <- Eb. ring.
Qed.

(** ** Clipping against the rectangle of a rule node *)

Lemma endCoordinate_rule (horizontal : bool)
    (source target : IATNGraphLayoutNode) (labels : list Label.t) :
  Node.type target = ATNRuleType ->
  endCoordinate horizontal (Link.mk (RefNode source) (RefNode target) labels) =
  match firstIntersection (centerLine source target) (rectEdges target) with
  | Some p => coordinate horizontal p
  | None => coordinate horizontal (targetCenter target)
  end.
Proof.
  intros Htype.
  unfold endCoordinate, rectEdges, centerLine, firstIntersection.
  cbn [Link.source Link.target].
  rewrite Htype, Z.eqb_refl.
  repeat (destruct (lineIntersection _ _); [reflexivity|]).
  destruct horizontal; reflexivity.
Qed.

Lemma firstIntersection_Some (line1 : ILine) (edges : list ILine) (p : Point) :
  firstIntersection line1 edges = Some p ->
  exists i edge,
    nth_error edges i = Some edge /\
    (forall j e, (j < i)%nat -> nth_error edges j = Some e ->
                 lineIntersection line1 e = None) /\
    lineIntersection line1 edge = Some p.
Proof.
  induction edges as [|e rest IH]; simpl; [discriminate|].
  destruct (lineIntersection line1 e) as [q|] eqn:E.
  - intros [= ->]. exists O, e. repeat split; [|exact E].
    intros j e' Hj. lia.
  - intros H. destruct (IH H) as (i & edge & Hn & Hbefore & Hi).
    exists (S i), edge. repeat split; [exact Hn| |exact Hi].
    intros [|j] e' Hj Hn'; simpl in Hn'.
    + now injection Hn' as <-.
    + apply (Hbefore j); [lia|exact Hn'].
Qed.

Lemma firstIntersection_None (line1 : ILine) (edges : list ILine) :
  firstIntersection line1 edges = None <->
  forall e, In e edges -> lineIntersection line1 e = None.
Proof.
  induction edges as [|e rest IH]; simpl.
  - split; [intros _ e []|reflexivity].
  - destruct (lineIntersection line1 e) as [q|] eqn:E.
    + split; [discriminate|]. intros H. specialize (H e (or_introl eq_refl)).
      congruence.
    + rewrite IH. split.
      * intros H e' [<-|Hin]; [exact E|now apply H].
      * intros H e' Hin. apply H. now right.
Qed.

(** ** The claims on the geometry *)



(** On the sample link the third edge (the left one) is the first that is
    crossed: the line ends at (155, 0). *)
Example clip_rule_far :
  eqv (endCoordinate true (Link.mk (RefNode basic_at_origin) (RefNode rule_far) []))
      (Fin 155) /\
  eqv (endCoordinate false (Link.mk (RefNode basic_at_origin) (RefNode rule_far) []))
      (Fin 0) /\
  firstIntersection (centerLine basic_at_origin rule_far)
                    (firstn 2 (rectEdges rule_far)) = None.
Proof. vm_compute. repeat split; reflexivity. Qed.

(** ** Label flow *)

Lemma appendLabels_capped (m total : Z) (labels : list Label.t) :
  (total - m > 0)%Z ->
  forall c : Z,
    (c < m)%Z -> (m - c <= Z.of_nat (List.length labels))%Z ->
    appendLabels m total c labels =
    map labelSpan (firstn (Z.to_nat (m - c)) labels) ++ [summarySpan (total - m)].
Proof.
  intros Htotal. induction labels as [|label rest IH]; intros c Hc Hlen.
  - simpl in Hlen. lia.
  - cbn [appendLabels].
    destruct (Z.eqb_spec (c + 1) m) as [E|E].
    + replace (m - c)%Z with 1%Z by lia.
      destruct (Z.gtb_spec (total - m) 0) as [_|Hle]; [reflexivity|lia].
    + rewrite (IH (c + 1)%Z) by (cbn [List.length] in Hlen; lia).
      replace (Z.to_nat (m - c)) with (S (Z.to_nat (m - (c + 1)))) by lia.
      reflexivity.
Qed.

Lemma appendLabels_all (m total : Z) (labels : list Label.t) :
  forall c : Z,
    (m <= c \/ c + Z.of_nat (List.length labels) < m)%Z ->
    appendLabels m total c labels = map labelSpan labels.
Proof.
  induction labels as [|label rest IH]; intros c Hc; [reflexivity|].
  cbn [appendLabels map]. cbn [List.length] in Hc.
  destruct (Z.eqb_spec (c + 1) m) as [E|E]; [lia|].
  rewrite (IH (c + 1)%Z) by lia. reflexivity.
Qed.

(** C2, as the code has it.  For a link with [n] labels and a maximum [m]
    with [1 <= m < n], [appendLinkText] appends the first [m] labels, one
    line each, and after them one more line that reads the number [n - m]
    of the labels left out followed by [ more ...]: [m + 1] lines. *)
Theorem appendLinkText_capped (m : Z) (link : IATNLink) :
  (1 <= m)%Z ->
  (m < Z.of_nat (List.length (Link.labels link)))%Z ->
  appendLinkText m link =
    map labelSpan (firstn (Z.to_nat m) (Link.labels link)) ++
    [summarySpan (Z.of_nat (List.length (Link.labels link)) - m)]
  /\ Z.of_nat (List.length (appendLinkText m link)) = (m + 1)%Z.
Proof.
  intros Hm Hn.
  assert (E : appendLinkText m link =
    map labelSpan (firstn (Z.to_nat m) (Link.labels link)) ++
    [summarySpan (Z.of_nat (List.length (Link.labels link)) - m)]).
  { unfold appendLinkText. rewrite appendLabels_capped by lia.
    now rewrite Z.sub_0_r. }
  split; [exact E|].
  rewrite E, length_app, length_map, length_firstn. cbn [List.length]. lia.
Qed.

Lemma appendLinkText_capped_witness :
  (1 <= 2)%Z /\
  (2 < Z.of_nat (List.length (Link.labels four_labels)))%Z /\
  appendLinkText 2 four_labels =
    map labelSpan (firstn (Z.to_nat 2) (Link.labels four_labels)) ++
    [summarySpan (Z.of_nat (List.length (Link.labels four_labels)) - 2)]
  /\ Z.of_nat (List.length (appendLinkText 2 four_labels)) = (2 + 1)%Z.
Proof.
  split; [lia|]. split; [simpl; lia|].
  apply (appendLinkText_capped 2 four_labels); simpl; lia.
Defined.

(** C2 as it is written does not hold: with the labels a, b, c, d and a
    maximum of 2 the code appends three lines, a, b and [2 more ...]; the
    summary is the third line and not the second. *)
Lemma appendLinkText_four_labels_three_lines :
  map span_text (appendLinkText 2 four_labels) = ["a"; "b"; "2 more ..."]%string /\
  List.length (appendLinkText 2 four_labels) <> 2%nat /\
  nth_error (map span_text (appendLinkText 2 four_labels)) 1
    <> Some "2 more ..."%string.
Proof.
  split; [reflexivity|]. split.
  - vm_compute. discriminate.
  - vm_compute. discriminate.
Qed.

(** With no more labels than the maximum, or a maximum below 1, every label
    gets its line and there is no summary. *)
Lemma appendLinkText_all (m : Z) (link : IATNLink) :
  (m < 1 \/ Z.of_nat (List.length (Link.labels link)) < m)%Z ->
  appendLinkText m link = map labelSpan (Link.labels link).
Proof.
  intros H. unfold appendLinkText. apply appendLabels_all. lia.
Qed.

(** ** Initial node positions *)

(** What [resetNode] leaves in a node: no horizontal pin; for a start or a
    stop node a vertical pin at 0, whatever the node had before; and for a
    start node without x the initial x of -1000. *)
Lemma resetNode_fields (node : IATNGraphLayoutNode) :
  Node.fx (resetNode node) = PinNull /\
  Node.fy (resetNode node) =
    (if (Node.type node =? ATNStateType.RULE_START)%Z
        || (Node.type node =? ATNStateType.RULE_STOP)%Z
     then PinAt 0%num else PinNull) /\
  Node.x (resetNode node) =
    (if (Node.type node =? ATNStateType.RULE_START)%Z
     then match Node.x node with
          | None => Some (Fin (-1000))
          | Some v => Some v
          end
     else Node.x node) /\
  Node.type (resetNode node) = Node.type node /\
  Node.name (resetNode node) = Node.name node /\
  Node.y (resetNode node) = Node.y node /\
  Node.width (resetNode node) = Node.width node.
Proof.
  destruct node as [nm ty vx vy pfx pfy w]. unfold resetNode. cbn.
  destruct (ty =? ATNStateType.RULE_START)%Z.
  - destruct vx; cbn; repeat split; reflexivity.
  - destruct (ty =? ATNStateType.RULE_STOP)%Z; cbn; repeat split; reflexivity.
Qed.

(** C3, where the code departs from it: a start node that the caller has
    pinned at y = 50 comes out of [resetNodePositions] pinned at y = 0.
    The pin is overwritten with [null] before the test that was to keep
    it. *)
Theorem resetNodePositions_overwrites_given_pin :
  Node.fy pinned_start = PinAt (Fin 50) /\
  map Node.fy (resetNodePositions [pinned_start]) = [PinAt 0%num] /\
  map Node.fx (resetNodePositions [pinned_start]) = [PinNull] /\
  map Node.x (resetNodePositions [pinned_start]) = [Some (Fin (-1000))].
Proof. repeat split. Qed.

Lemma resetNode_idempotent (node : IATNGraphLayoutNode) :
  resetNode (resetNode node) = resetNode node.
Proof.
  destruct node as [nm ty vx vy pfx pfy w]. unfold resetNode. cbn.
  destruct (ty =? ATNStateType.RULE_START)%Z eqn:E1.
  - destruct vx; cbn; rewrite E1; reflexivity.
  - destruct (ty =? ATNStateType.RULE_STOP)%Z eqn:E2; cbn; rewrite E1, ?E2;
      reflexivity.
Qed.

(** ** Reset of the view *)

(** C9.  Two calls of [resetTransformation] in a row leave the same view
    transform (scale, x, y) as one call. *)
Theorem resetTransformation_idempotent (r : ATNGraphRenderer) :
  zoomTransform (resetTransformation (resetTransformation r)) =
  zoomTransform (resetTransformation r).
Proof. reflexivity. Qed.

(** X12.  A second call of [resetTransformation] right after the first
    changes nothing at all: not the transform, not the pins and not the
    positions of the nodes. *)
Lemma resetTransformation_twice (r : ATNGraphRenderer) :
  resetTransformation (resetTransformation r) = resetTransformation r.
Proof.
  destruct r as [[nm mx [ns ls] sc tr] sv zt sim].
  unfold resetTransformation, with_nodes, with_transform, this_nodes. cbn.
  unfold resetNodePositions. rewrite map_map.
  rewrite (map_ext _ _ resetNode_idempotent). reflexivity.
Qed.

(** The transform after a reset, written out. *)
Lemma resetTransformation_transform (r : ATNGraphRenderer) :
  let d := this_data r in
  zoomTransform (resetTransformation r) =
  D3.mkTransform
    (1 * initialScale d)%num
    (0 + (1 * initialScale d)
         * (fst (initialTranslation d) ?? ((clientWidth r ?? 0) / Fin 2)))%num
    (0 + (1 * initialScale d)
         * (snd (initialTranslation d) ?? ((clientHeight r ?? 0) / Fin 2)))%num.
Proof. reflexivity. Qed.

(** ** Zoom *)

Lemma zoomed_in_extent (t : D3.ZoomTransform) (g : ZoomGesture) :
  finite (D3.k t) = true -> in_scaleExtent (zoomed t g).
Proof.
  unfold in_scaleExtent, zoomed. destruct (D3.k t) as [q| | |]; try discriminate.
  intros _. cbn [D3.k mul scaleExtent fst snd].
  unfold JS.min, JS.max, leb.
  destruct (Qle_bool 3 (q * factor g)) eqn:Ehi.
  - destruct (Qle_bool (15 # 100) 3) eqn:Elo; [|discriminate].
    exists 3%Q. split; [reflexivity|]. split; [discriminate|apply Qle_refl].
  - destruct (Qle_bool (15 # 100) (q * factor g)) eqn:Elo.
    + exists (q * factor g)%Q. split; [reflexivity|].
      apply Qle_bool_iff in Elo. split; [exact Elo|].
      apply Qlt_le_weak, Qnot_le_lt. intro H. apply Qle_bool_iff in H. congruence.
    + exists (15 # 100)%Q. split; [reflexivity|].
      split; [apply Qle_refl|discriminate].
Qed.

Lemma zoomGestures_in_extent (gs : list ZoomGesture) :
  forall t : D3.ZoomTransform,
    in_scaleExtent t -> in_scaleExtent (zoomGestures t gs).
Proof.
  unfold zoomGestures.
  induction gs as [|g rest IH]; intros t Ht; [exact Ht|].
  cbn [fold_left]. apply IH. apply zoomed_in_extent.
  destruct Ht as (q & -> & _). reflexivity.
Qed.

(** C8.  From a transform whose scale lies within [0.15, 3], every sequence
    of zoom gestures, whatever their factors, ends in a transform whose
    scale lies within [0.15, 3]; and from any finite scale the first gesture
    brings the scale into [0.15, 3], where the later ones keep it. *)
Theorem zoomGestures_scale_in_extent
    (t : D3.ZoomTransform) (gs : list ZoomGesture) :
  (in_scaleExtent t -> in_scaleExtent (zoomGestures t gs)) /\
  (forall g : ZoomGesture,
      finite (D3.k t) = true -> in_scaleExtent (zoomGestures t (g :: gs))).
Proof.
  split.
  - apply zoomGestures_in_extent.
  - intros g Hfinite. unfold zoomGestures. cbn [fold_left].
    apply (zoomGestures_in_extent gs). now apply zoomed_in_extent.
Qed.

Lemma zoomGestures_scale_in_extent_witness :
  in_scaleExtent D3.zoomIdentity /\
  in_scaleExtent
    (zoomGestures D3.zoomIdentity
       [mkGesture 1000 5 5; mkGesture (1 # 1000000) 0 0; mkGesture 2 1 1]) /\
  finite (D3.k (D3.mkTransform (Fin 50) 0%num 0%num)) = true /\
  in_scaleExtent
    (zoomGestures (D3.mkTransform (Fin 50) 0%num 0%num)
       [mkGesture 1 0 0; mkGesture (1 # 1000000) 0 0]).
Proof.
  assert (H : in_scaleExtent D3.zoomIdentity).
  { exists 1%Q. split; [reflexivity|]. split; discriminate. }
  split; [exact H|]. split.
  - apply (proj1 (zoomGestures_scale_in_extent D3.zoomIdentity _)). exact H.
  - split; [reflexivity|].
    apply (proj2 (zoomGestures_scale_in_extent
                    (D3.mkTransform (Fin 50) 0%num 0%num) _)).
    reflexivity.
Defined.

(** ** Dragging *)

Lemma nth_error_update_node (f : IATNGraphLayoutNode -> IATNGraphLayoutNode)
    (ns : list IATNGraphLayoutNode) (i j : nat) :
  nth_error (update_node i f ns) j =
  if Nat.eqb j i then option_map f (nth_error ns j) else nth_error ns j.
Proof.
  revert i j. induction ns as [|n rest IH]; intros i j.
  - destruct i, j; cbn; try reflexivity; now destruct (Nat.eqb j i).
  - destruct i, j; cbn; try reflexivity. apply IH.
Qed.

Lemma this_nodes_with_nodes (ns : list IATNGraphLayoutNode)
    (r : ATNGraphRenderer) :
  this_nodes (with_nodes ns r) = ns.
Proof. reflexivity. Qed.

Lemma dragged_keeps_subject (r : ATNGraphRenderer) (e : ATNGraphDragEvent)
    (i : nat) (node : IATNGraphLayoutNode) :
  nth_error (this_nodes r) i = Some node ->
  exists node', nth_error (this_nodes (dragged r e)) i = Some node'.
Proof.
  intros H. unfold dragged. rewrite this_nodes_with_nodes, nth_error_update_node.
  rewrite H. destruct (Nat.eqb i (DragEvent.subject e)); cbn; eauto.
Qed.

Lemma dragStarted_subject (r : ATNGraphRenderer) (e : ATNGraphDragEvent)
    (node : IATNGraphLayoutNode) :
  nth_error (this_nodes r) (DragEvent.subject e) = Some node ->
  nth_error (this_nodes (dragStarted r e)) (DragEvent.subject e) =
  Some (Node.set_fy (PinAt (DragEvent.y e))
          (Node.set_fx (PinAt (DragEvent.x e)) node)).
Proof.
  intros H. unfold dragStarted. rewrite this_nodes_with_nodes.
  rewrite nth_error_update_node, Nat.eqb_refl.
  destruct (DragEvent.active e =? 0)%Z; cbn; unfold this_nodes in *; cbn;
    rewrite H; reflexivity.
Qed.

Lemma drag_moves_keep_subject (moves : list ATNGraphDragEvent) :
  forall (r : ATNGraphRenderer) (i : nat) (node : IATNGraphLayoutNode),
    nth_error (this_nodes r) i = Some node ->
    exists node', nth_error (this_nodes (fold_left dragged moves r)) i = Some node'.
Proof.
  induction moves as [|e rest IH]; intros r i node H; cbn; [eauto|].
  destruct (dragged_keeps_subject r e i node H) as (node' & H').
  exact (IH _ _ _ H').
Qed.

(** [snapToGrid] of a finite value is 20 times an integer, the nearest such
    multiple, the upper one of two that are equally near. *)
Lemma snapToGrid_nearest (q : Q) :
  exists n : Z,
    snapToGrid (Fin q) = Fin (inject_Z n * 20) /\
    n = Qfloor (q / 20 + (1 # 2)) /\
    (q - 10 < inject_Z n * 20 <= q + 10)%Q.
Proof.
  exists (Qfloor (q / 20 + (1 # 2))).
  split; [reflexivity|]. split; [reflexivity|].
  pose proof (Qfloor_le (q / 20 + (1 # 2))) as Hle.
  pose proof (Qlt_floor (q / 20 + (1 # 2))) as Hlt.
  rewrite inject_Z_plus in Hlt.
  set (n := inject_Z (Qfloor (q / 20 + (1 # 2)))) in *.
  assert (Hq : (q == (q / 20) * 20)%Q) by (field).
  split.
  - apply Qlt_minus_iff. apply Qlt_minus_iff in Hlt.
    setoid_replace (n * 20 + - (q - 10))%Q
      with (20 * (n + inject_Z 1 + - (q / 20 + (1 # 2))))%Q
      by (rewrite Hq at 1; simpl; field).
    apply Qmult_lt_0_compat; [reflexivity|exact Hlt].
  - apply Qle_minus_iff. apply Qle_minus_iff in Hle.
    setoid_replace (q + 10 + - (n * 20))%Q
      with (20 * (q / 20 + (1 # 2) + - n))%Q
      by (rewrite Hq at 1; field).
    apply Qmult_le_0_compat; [discriminate|exact Hle].
Qed.

(** A drag that starts and never moves leaves the node pinned at the pointer
    position of the start, as it is. *)
Lemma drag_start_pins_pointer (r : ATNGraphRenderer) (start : ATNGraphDragEvent)
    (node : IATNGraphLayoutNode) :
  nth_error (this_nodes r) (DragEvent.subject start) = Some node ->
  exists node',
    nth_error (this_nodes (dragSequence r start [])) (DragEvent.subject start)
      = Some node' /\
    Node.fx node' = PinAt (DragEvent.x start) /\
    Node.fy node' = PinAt (DragEvent.y start).
Proof.
  intros H. eexists. split; [exact (dragStarted_subject r start node H)|].
  split; reflexivity.
Qed.

(** C4, as the code has it.  In a drag sequence with at least one move
    event at a finite pointer position, the pin of the dragged node after
    the last move is [snapToGrid] of the pointer position of that move, in
    both coordinates: 20 times an integer, the nearest such multiple. *)
Theorem drag_moves_pin_on_grid
    (r : ATNGraphRenderer) (start last : ATNGraphDragEvent)
    (moves : list ATNGraphDragEvent) (node : IATNGraphLayoutNode)
    (qx qy : Q) :
  nth_error (this_nodes r) (DragEvent.subject start) = Some node ->
  DragEvent.subject last = DragEvent.subject start ->
  DragEvent.x last = Fin qx ->
  DragEvent.y last = Fin qy ->
  exists (node' : IATNGraphLayoutNode) (nx ny : Z),
    nth_error (this_nodes (dragSequence r start (moves ++ [last])))
              (DragEvent.subject start) = Some node' /\
    Node.fx node' = PinAt (snapToGrid (Fin qx)) /\
    Node.fy node' = PinAt (snapToGrid (Fin qy)) /\
    snapToGrid (Fin qx) = Fin (inject_Z nx * 20) /\
    snapToGrid (Fin qy) = Fin (inject_Z ny * 20) /\
    (qx - 10 < inject_Z nx * 20 <= qx + 10)%Q /\
    (qy - 10 < inject_Z ny * 20 <= qy + 10)%Q /\
    on_grid (Node.fx node') /\ on_grid (Node.fy node').
Proof.
  intros Hnode Hsubject Hx Hy.
  pose proof (dragStarted_subject r start node Hnode) as Hstart.
  destruct (drag_moves_keep_subject moves _ _ _ Hstart) as (before & Hbefore).
  destruct (snapToGrid_nearest qx) as (nx & Enx & _ & Hnx).
  destruct (snapToGrid_nearest qy) as (ny & Eny & _ & Hny).
  exists (Node.set_fy (PinAt (snapToGrid (Fin qy)))
            (Node.set_fx (PinAt (snapToGrid (Fin qx))) before)), nx, ny.
  split.
  - unfold dragSequence. rewrite fold_left_app. cbn [fold_left].
    unfold dragged at 1. rewrite this_nodes_with_nodes, nth_error_update_node.
    rewrite Hsubject, Nat.eqb_refl, Hbefore, Hx, Hy. reflexivity.
  - cbn [Node.fx Node.fy Node.set_fx Node.set_fy].
    repeat split; try assumption; try tauto.
    + exists nx, (inject_Z nx * 20)%Q. rewrite Enx. split; reflexivity.
    + exists ny, (inject_Z ny * 20)%Q. rewrite Eny. split; reflexivity.
Qed.

Lemma drag_moves_pin_on_grid_witness :
  let start := DragEvent.mk 0 (Fin 13) (Fin 7) 0 in
  let last := DragEvent.mk 1 (Fin 31) (Fin (-10)) 0 in
  let moves := [DragEvent.mk 1 (Fin 20) (Fin 3) 0] in
  nth_error (this_nodes sample_renderer) (DragEvent.subject start)
    = Some basic_at_origin /\
  exists (node' : IATNGraphLayoutNode) (nx ny : Z),
    nth_error (this_nodes (dragSequence sample_renderer start (moves ++ [last])))
              (DragEvent.subject start) = Some node' /\
    Node.fx node' = PinAt (snapToGrid (Fin 31)) /\
    Node.fy node' = PinAt (snapToGrid (Fin (-10))) /\
    snapToGrid (Fin 31) = Fin (inject_Z nx * 20) /\
    snapToGrid (Fin (-10)) = Fin (inject_Z ny * 20) /\
    (31 - 10 < inject_Z nx * 20 <= 31 + 10)%Q /\
    (-10 - 10 < inject_Z ny * 20 <= -10 + 10)%Q /\
    on_grid (Node.fx node') /\ on_grid (Node.fy node').
Proof.
  intros start last moves. split; [reflexivity|].
  apply (drag_moves_pin_on_grid sample_renderer start last moves basic_at_origin
           31 (-10)); reflexivity.
Defined.

(** C4 as it is written does not hold for a drag without a move event: the
    start at the pointer position (13, 7) pins the node at (13, 7), and
    neither coordinate is a multiple of 20. *)
Lemma drag_start_alone_off_grid :
  let start := DragEvent.mk 0 (Fin 13) (Fin 7) 0 in
  exists node',
    nth_error (this_nodes (dragSequence sample_renderer start [])) 0
      = Some node' /\
    Node.fx node' = PinAt (Fin 13) /\
    Node.fy node' = PinAt (Fin 7) /\
    ~ on_grid (Node.fx node') /\ ~ on_grid (Node.fy node').
Proof.
  intros start. eexists. split; [reflexivity|]. cbn.
  split; [reflexivity|]. split; [reflexivity|].
  split; intros (n & q & E & Hq); injection E as <-;
    unfold Qeq in Hq; cbn in Hq; lia.
Qed.

(** The sample values of [snapToGrid]: a tie goes up. *)
Example snapToGrid_samples :
  eqv (snapToGrid (Fin 31)) (Fin 40) /\
  eqv (snapToGrid (Fin 30)) (Fin 40) /\
  eqv (snapToGrid (Fin (-10))) (Fin 0) /\
  eqv (snapToGrid (Fin (-11))) (Fin (-20)) /\
  eqv (snapToGrid (Fin (29 # 1))) (Fin 20).
Proof. vm_compute. repeat split; reflexivity. Qed.

(** ** Rendering *)



Lemma forEach_Throw {A B : Type} (f : A -> Completion B) (l : list A) (a : A) :
  In a l -> (exists e, f a = Throw e) -> exists e, forEach f l = Throw e.
Proof.
  induction l as [|a0 rest IH]; cbn; intros Hin Hthrow; [contradiction|].
  destruct (f a0) as [b|e] eqn:E0; cbn; [|eauto].
  destruct Hin as [->|Hin].
  - destruct Hthrow as (e & He). congruence.
  - destruct (IH Hin Hthrow) as (e & ->). cbn. eauto.
Qed.

Lemma element_stateType (ty : Z) :
  ((0 <= ty <= 12)%Z -> exists info, element stateType ty = Some info) /\
  (~ (0 <= ty <= 12)%Z -> element stateType ty = None).
Proof.
  unfold element. destruct (Z.ltb_spec ty 0) as [Hneg|Hpos].
  - split; [lia|reflexivity].
  - split; intros H.
    + destruct (nth_error stateType (Z.to_nat ty)) as [info|] eqn:E; [eauto|].
      apply nth_error_None in E. cbn in E. lia.
    + apply nth_error_None. cbn. lia.
Qed.

Lemma element_at_map {A : Type} (f : A -> A) (l : list A) (ref : NodeRef) :
  element_at (map f l) ref = option_map f (element_at l ref).
Proof.
  destruct ref as [i|n]; cbn; [|reflexivity].
  unfold element. destruct (i <? 0)%Z; [reflexivity|]. apply nth_error_map.
Qed.

Lemma renderFigure_unknown (objectName : string) (figure : IATNGraphLayoutNode) :
  ~ known_type figure ->
  renderFigure objectName figure =
  Throw (TypeError "Cannot read properties of undefined (reading 'short')").
Proof.
  intros H. unfold renderFigure.
  rewrite (proj2 (element_stateType _) H). reflexivity.
Qed.

Lemma this_nodes_resetTransformation (r : ATNGraphRenderer) :
  this_nodes (resetTransformation r) = map resetNode (this_nodes r).
Proof. reflexivity. Qed.

Lemma resetNode_known_type (node : IATNGraphLayoutNode) :
  known_type (resetNode node) <-> known_type node.
Proof.
  unfold known_type.
  destruct (resetNode_fields node) as (_ & _ & _ & -> & _). reflexivity.
Qed.

Lemma resizeRect_type (measure : string -> number) (node : IATNGraphLayoutNode) :
  Node.type (resizeRect measure node) = Node.type node.
Proof.
  unfold resizeRect. destruct (Node.type node =? ATNRuleType)%Z; reflexivity.
Qed.

Lemma render_throws_on_figure (measure : string -> number)
    (r : ATNGraphRenderer) (node : IATNGraphLayoutNode) :
  In node (this_nodes r) -> ~ known_type node ->
  exists e, render measure r = Throw e.
Proof.
  intros Hin Hunknown. unfold render.
  destruct (forEach (markerEnd _) _) as [ls|e]; cbn [bind]; [|eauto].
  rewrite this_nodes_resetTransformation.
  destruct (forEach_Throw
              (renderFigure (objectName (this_data (resetTransformation r))))
              (map resetNode (this_nodes r)) (resetNode node)) as (e & ->).
  - now apply in_map.
  - eexists. apply renderFigure_unknown. now rewrite resetNode_known_type.
  - cbn. eauto.
Qed.

Lemma renderFigure_known (objectName : string) (figure : IATNGraphLayoutNode) :
  known_type figure ->
  exists info,
    element stateType (Node.type figure) = Some info /\
    renderFigure objectName figure =
      Normal
        (mkFigure
           (if (Node.type figure =? ATNRuleType)%Z
            then Rect 50 50 (-25) 5
                   (if String.eqb (Node.name figure) objectName then 20 else 5)
            else Circle 30)
           (if String.eqb (Node.name figure) objectName
            then (("state " ++ short info) ++ " recursive")%string
            else ("state " ++ short info)%string)
           (long info)) /\
    description figure = Normal (short info).
Proof.
  intros Hknown.
  destruct (proj1 (element_stateType _) Hknown) as (info & E).
  exists info. split; [exact E|].
  unfold renderFigure, description. rewrite E. cbn [property bind].
  split; reflexivity.
Qed.

(** C6, as the code has it.  For a node whose state type is one of the 13
    known values, the selection of the shape succeeds: a rectangle for the
    rule type 0 and a circle for the others, with the class, the tooltip and
    the description of the entry of the type in [stateType].  For a node
    whose state type is any other value there is no entry: reading its
    [short] throws a [TypeError], and a [render] of a graph with such a node
    does not complete. *)
Theorem shape_selection_by_state_type :
  (forall (objectName : string) (figure : IATNGraphLayoutNode),
      known_type figure ->
      exists info,
        element stateType (Node.type figure) = Some info /\
        renderFigure objectName figure =
          Normal
            (mkFigure
               (if (Node.type figure =? ATNRuleType)%Z
                then Rect 50 50 (-25) 5
                       (if String.eqb (Node.name figure) objectName
                        then 20 else 5)
                else Circle 30)
               (if String.eqb (Node.name figure) objectName
                then (("state " ++ short info) ++ " recursive")%string
                else ("state " ++ short info)%string)
               (long info)) /\
        description figure = Normal (short info))
  /\
  (forall (objectName : string) (figure : IATNGraphLayoutNode),
      ~ known_type figure ->
      renderFigure objectName figure =
        Throw (TypeError "Cannot read properties of undefined (reading 'short')"))
  /\
  (forall (measure : string -> number) (r : ATNGraphRenderer)
          (node : IATNGraphLayoutNode),
      In node (this_nodes r) -> ~ known_type node ->
      exists e, render measure r = Throw e).
Proof.
  split; [|split].
  - exact renderFigure_known.
  - exact renderFigure_unknown.
  - exact render_throws_on_figure.
Qed.

Lemma shape_selection_by_state_type_witness :
  (known_type rule_far /\
   exists info,
     element stateType (Node.type rule_far) = Some info /\
     renderFigure "expr" rule_far =
       Normal
         (mkFigure
            (if (Node.type rule_far =? ATNRuleType)%Z
             then Rect 50 50 (-25) 5
                    (if String.eqb (Node.name rule_far) "expr" then 20 else 5)
             else Circle 30)
            (if String.eqb (Node.name rule_far) "expr"
             then (("state " ++ short info) ++ " recursive")%string
             else ("state " ++ short info)%string)
            (long info)) /\
     description rule_far = Normal (short info))
  /\
  (~ known_type unknown_node /\
   In unknown_node (this_nodes unknown_type_renderer) /\
   renderFigure "expr" unknown_node =
     Throw (TypeError "Cannot read properties of undefined (reading 'short')") /\
   exists e, render sample_measure unknown_type_renderer = Throw e).
Proof.
  split.
  - assert (H : known_type rule_far)
      by (unfold known_type; vm_compute; split; discriminate).
    split; [exact H|].
    apply (proj1 shape_selection_by_state_type). exact H.
  - assert (H : ~ known_type unknown_node)
      by (unfold known_type; cbn; lia).
    assert (Hin : In unknown_node (this_nodes unknown_type_renderer))
      by (cbn; auto).
    split; [exact H|]. split; [exact Hin|]. split.
    + apply (proj1 (proj2 shape_selection_by_state_type)). exact H.
    + apply (proj2 (proj2 shape_selection_by_state_type) sample_measure
               unknown_type_renderer unknown_node); [exact Hin|exact H].
Defined.

(** C6 as it is written does not hold: a graph with a node of state type 13
    makes [render] throw; no generic shape is drawn. *)
Lemma render_unknown_type_throws :
  render sample_measure unknown_type_renderer =
    Throw (TypeError "Cannot read properties of undefined (reading 'short')") /\
  ~ exists result, render sample_measure unknown_type_renderer = Normal result.
Proof.
  split; [reflexivity|]. intros (result & H). vm_compute in H. discriminate.
Qed.









Lemma this_nodes_with_links (ls : list IATNLink) (r : ATNGraphRenderer) :
  this_nodes (with_links ls r) = this_nodes r.
Proof. reflexivity. Qed.





(** A link whose source names no node passes the markers, its target being
    a node, and is refused by the look-up of [d3.forceLink]. *)
Example render_dangling_source_throws :
  render sample_measure dangling_source_renderer
  = Throw (Error "node not found: 7").
Proof. reflexivity. Qed.

(** * Further properties of the renderer *)

(** ** Where the line of a link ends *)

Lemma clipPoint_rule (source target : IATNGraphLayoutNode)
    (labels : list Label.t) :
  Node.type target = ATNRuleType ->
  clipPoint (Link.mk (RefNode source) (RefNode target) labels) =
  match firstIntersection (centerLine source target) (rectEdges target) with
  | Some p => p
  | None => targetCenter target
  end.
Proof.
  intros Hrule. unfold clipPoint. rewrite !endCoordinate_rule by exact Hrule.
  destruct (firstIntersection _ _) as [[a b]|]; reflexivity.
Qed.

Lemma lineIntersection_degenerate (line1 line2 : ILine) :
  x1 line1 = x2 line1 -> y1 line1 = y2 line1 ->
  lineIntersection line1 line2 = None.
Proof.
  intros Hx Hy.
  destruct (lineIntersection line1 line2) as [p|] eqn:E; [exfalso|reflexivity].
  apply lineIntersection_Some in E.
  destruct E as (a1 & b1 & a2 & b2 & a3 & b3 & a4 & b4 & -> & _ & Hd & _).
  cbn in Hx, Hy. injection Hx as ->. injection Hy as ->.
  apply Hd. ring.
Qed.

(** X5.  The line of a link from a node to itself ends at the center of the
    node, whatever the type, the position and the width of the node: the
    segment between the centers has length zero and meets no edge. *)
Theorem clip_self_loop (node : IATNGraphLayoutNode) (labels : list Label.t) :
  clipPoint (Link.mk (RefNode node) (RefNode node) labels) = targetCenter node
  /\ transformLine (Link.mk (RefNode node) (RefNode node) labels)
     = mkLine (Node.x node ?? 0)%num (Node.y node ?? 0)%num
              (Node.x node ?? 0)%num (Node.y node ?? 0)%num.
Proof.
  assert (E : clipPoint (Link.mk (RefNode node) (RefNode node) labels)
              = targetCenter node).
  { destruct (Z.eq_dec (Node.type node) ATNRuleType) as [Hrule|Hother].
    - rewrite (clipPoint_rule _ _ _ Hrule).
      replace (firstIntersection (centerLine node node) (rectEdges node))
        with (@None Point); [reflexivity|].
      symmetry. apply firstIntersection_None. intros e _.
      apply lineIntersection_degenerate; reflexivity.
    - unfold clipPoint, endCoordinate. cbn [Link.source Link.target].
      apply Z.eqb_neq in Hother. rewrite Hother. reflexivity. }
  split; [exact E|].
  unfold transformLine. cbn [Link.source Link.target isATNLayoutNode].
  unfold clipPoint, targetCenter in E. injection E as -> ->. reflexivity.
Qed.

(** ** The grid *)

Lemma Qfloor_unique (q : Q) (n : Z) :
  (inject_Z n <= q)%Q -> (q < inject_Z (n + 1))%Q -> Qfloor q = n.
Proof.
  intros Hle Hlt.
  pose proof (Qfloor_le q) as H1. pose proof (Qlt_floor q) as H2.
  assert (A : (inject_Z (Qfloor q) < inject_Z (n + 1))%Q) by lra.
  assert (B : (inject_Z n < inject_Z (Qfloor q + 1))%Q) by lra.
  rewrite <- Zlt_Qlt in A, B. lia.
Qed.

Lemma snapToGrid_on_multiple (n : Z) :
  snapToGrid (Fin (inject_Z n * 20)) = Fin (inject_Z n * 20).
Proof.
  destruct (snapToGrid_nearest (inject_Z n * 20)) as (m & -> & Em & _).
  assert (E : m = n).
  { rewrite Em. apply Qfloor_unique.
    - assert (H : (inject_Z n * 20 / 20 == inject_Z n)%Q) by field. lra.
    - rewrite inject_Z_plus.
      assert (H : (inject_Z n * 20 / 20 == inject_Z n)%Q) by field.
      change (inject_Z 1) with 1%Q. lra. }
  now rewrite E.
Qed.

Lemma snapToGrid_twice (v : number) :
  snapToGrid (snapToGrid v) = snapToGrid v.
Proof.
  destruct v as [q| | |]; try reflexivity.
  destruct (snapToGrid_nearest q) as (n & -> & _).
  apply snapToGrid_on_multiple.
Qed.

(** X6.  [snapToGrid] leaves every multiple of 20 where it is, and applying
    it twice is the same as applying it once, for every number ([NaN] and
    the infinities included). *)
Theorem snapToGrid_idempotent :
  (forall n : Z, snapToGrid (Fin (inject_Z n * 20)) = Fin (inject_Z n * 20)) /\
  (forall v : number, snapToGrid (snapToGrid v) = snapToGrid v).
Proof.
  split; [exact snapToGrid_on_multiple|exact snapToGrid_twice].
Qed.

(** X7.  [snapToGrid] keeps the order: from [a <= b] follows
    [snapToGrid a <= snapToGrid b], for all numbers. *)
Theorem snapToGrid_monotone (a b : number) :
  (a <=? b)%num = true -> (snapToGrid a <=? snapToGrid b)%num = true.
Proof.
  destruct a as [p| | |], b as [q| | |]; try discriminate; try reflexivity.
  cbn [leb]. intros H. apply Qle_bool_iff in H.
  destruct (snapToGrid_nearest p) as (n & -> & En & _).
  destruct (snapToGrid_nearest q) as (m & -> & Em & _).
  cbn [leb]. apply Qle_bool_iff.
  assert (Hnm : (n <= m)%Z).
  { rewrite En, Em. apply Qfloor_resp_le.
    assert (Hp : (p / 20 == p * (1 # 20))%Q) by field.
    assert (Hq : (q / 20 == q * (1 # 20))%Q) by field.
    lra. }
  rewrite Zle_Qle in Hnm. lra.
Qed.

Lemma snapToGrid_monotone_witness :
  (Fin 29 <=? Fin 31)%num = true /\
  (snapToGrid (Fin 29) <=? snapToGrid (Fin 31))%num = true.
Proof.
  split; [reflexivity|]. apply snapToGrid_monotone. reflexivity.
Defined.

(** X8.  A node that sits where a drag move has pinned it is drawn by
    [snapTransform], at the end of the simulation, where [transform] drew
    it before: the final snap does not move a node off its pin. *)
Theorem snapTransform_at_pin (node : IATNGraphLayoutNode) (vx vy : number) :
  Node.x node = Some (snapToGrid vx) ->
  Node.y node = Some (snapToGrid vy) ->
  snapTransform node = transform node.
Proof.
  intros Hx Hy. unfold snapTransform, transform. rewrite Hx, Hy.
  cbn [coalesce]. now rewrite !snapToGrid_twice.
Qed.

Lemma snapTransform_at_pin_witness :
  let node := Node.mk "1" ATNStateType.BASIC
                (Some (snapToGrid (Fin 31))) (Some (snapToGrid (Fin (-10))))
                (PinAt (snapToGrid (Fin 31))) (PinAt (snapToGrid (Fin (-10))))
                None in
  snapTransform node = transform node.
Proof.
  intros node.
  apply (snapTransform_at_pin node (Fin 31) (Fin (-10))); reflexivity.
Defined.

(** ** Label flow, the other cases *)

Lemma appendLabels_no_summary (m total : Z) (labels : list Label.t) :
  forall c : Z,
    (c + Z.of_nat (List.length labels) = total)%Z ->
    (m <= c \/ total <= m)%Z ->
    appendLabels m total c labels = map labelSpan labels.
Proof.
  induction labels as [|label rest IH]; intros c Hlen Hm; [reflexivity|].
  cbn [appendLabels map]. cbn [List.length] in Hlen.
  destruct (Z.eqb_spec (c + 1) m) as [E|E].
  - destruct (Z.gtb_spec (total - m) 0) as [Hgt|_]; [lia|].
    destruct rest; [reflexivity|cbn [List.length] in Hlen; lia].
  - rewrite (IH (c + 1)%Z) by lia. reflexivity.
Qed.

(** X9.  When the maximum is below 1, or is not below the number of labels
    (equal to it included), [appendLinkText] appends exactly one line for
    every label, in the order of the labels, and no summary. *)
Theorem appendLinkText_no_summary (m : Z) (link : IATNLink) :
  (m < 1 \/ Z.of_nat (List.length (Link.labels link)) <= m)%Z ->
  appendLinkText m link = map labelSpan (Link.labels link).
Proof.
  intros H. unfold appendLinkText. apply appendLabels_no_summary; lia.
Qed.

Lemma appendLinkText_no_summary_witness :
  (4 < 1 \/ Z.of_nat (List.length (Link.labels four_labels)) <= 4)%Z /\
  appendLinkText 4 four_labels = map labelSpan (Link.labels four_labels).
Proof.
  assert (H : (4 < 1 \/ Z.of_nat (List.length (Link.labels four_labels)) <= 4)%Z)
    by (right; cbn; lia).
  split; [exact H|]. apply appendLinkText_no_summary. exact H.
Defined.

(** X10.  [appendLinkText] never appends more lines than the link has
    labels, whatever the maximum: the summary line appears only when at
    least one label is left out.  A link without labels gets no line. *)
Theorem appendLinkText_length (m : Z) (link : IATNLink) :
  (List.length (appendLinkText m link) <= List.length (Link.labels link))%nat.
Proof.
  destruct (Z_lt_le_dec m 1) as [Hlow|Hm].
  - rewrite appendLinkText_all by lia. now rewrite length_map.
  - destruct (Z_lt_le_dec m (Z.of_nat (List.length (Link.labels link))))
      as [Hcap|Hall].
    + unfold appendLinkText. rewrite appendLabels_capped by lia.
      rewrite length_app, length_map, length_firstn. cbn [List.length]. lia.
    + unfold appendLinkText. rewrite appendLabels_no_summary by lia.
      now rewrite length_map.
Qed.

(** ** Reset and drag *)

(** X11.  After [resetNodePositions] no node is pinned horizontally; a start
    or a stop node is pinned vertically at 0 and no other node is pinned
    vertically, whatever the pins were before; only a start node without x
    gets a new x, -1000; names, types, y and widths stay, and so does the
    number of nodes. *)
Theorem resetNodePositions_result
    (ns : list IATNGraphLayoutNode) (i : nat) (node : IATNGraphLayoutNode) :
  nth_error ns i = Some node ->
  List.length (resetNodePositions ns) = List.length ns /\
  exists node',
    nth_error (resetNodePositions ns) i = Some node' /\
    Node.fx node' = PinNull /\
    Node.fy node' =
      (if (Node.type node =? ATNStateType.RULE_START)%Z
          || (Node.type node =? ATNStateType.RULE_STOP)%Z
       then PinAt 0%num else PinNull) /\
    Node.x node' =
      (if (Node.type node =? ATNStateType.RULE_START)%Z
       then match Node.x node with
            | None => Some (Fin (-1000))
            | Some v => Some v
            end
       else Node.x node) /\
    Node.name node' = Node.name node /\
    Node.type node' = Node.type node /\
    Node.y node' = Node.y node /\
    Node.width node' = Node.width node.
Proof.
  intros H. unfold resetNodePositions. split; [apply length_map|].
  exists (resetNode node). rewrite nth_error_map, H.
  split; [reflexivity|].
  destruct (resetNode_fields node) as (A & B & C & D & E & F & G).
  repeat split; assumption.
Qed.

Lemma resetNodePositions_result_witness :
  nth_error [basic_at_origin; pinned_start] 1 = Some pinned_start /\
  List.length (resetNodePositions [basic_at_origin; pinned_start]) = 2%nat /\
  exists node',
    nth_error (resetNodePositions [basic_at_origin; pinned_start]) 1
      = Some node' /\
    Node.fx node' = PinNull /\
    Node.fy node' = PinAt 0%num /\
    Node.x node' = Some (Fin (-1000)) /\
    Node.name node' = Node.name pinned_start /\
    Node.type node' = Node.type pinned_start /\
    Node.y node' = Node.y pinned_start /\
    Node.width node' = Node.width pinned_start.
Proof.
  split; [reflexivity|].
  exact (resetNodePositions_result [basic_at_origin; pinned_start] 1
           pinned_start eq_refl).
Defined.

Lemma map_update_node {B : Type} (g : IATNGraphLayoutNode -> B)
    (f : IATNGraphLayoutNode -> IATNGraphLayoutNode) :
  (forall n, g (f n) = g n) ->
  forall (ns : list IATNGraphLayoutNode) (i : nat),
    map g (update_node i f ns) = map g ns.
Proof.
  intros Hgf. induction ns as [|n rest IH]; intros i; [now destruct i|].
  destruct i; cbn; [now rewrite Hgf|now rewrite IH].
Qed.

Lemma resetNode_ignores_pins (p q : Pin) (node : IATNGraphLayoutNode) :
  resetNode (Node.set_fy p (Node.set_fx q node)) = resetNode node.
Proof. destruct node. reflexivity. Qed.

Lemma drag_moves_as_update (moves : list ATNGraphDragEvent) :
  forall r : ATNGraphRenderer,
    fold_left dragged moves r
    = with_nodes (this_nodes (fold_left dragged moves r)) r.
Proof.
  induction moves as [|e rest IH]; intros r; cbn [fold_left].
  - destruct r as [[nm mx [ns ls] sc tr] sv zt sim]. reflexivity.
  - etransitivity; [apply IH|reflexivity].
Qed.

Lemma drag_moves_keep {B : Type} (g : IATNGraphLayoutNode -> B) :
  (forall p q n, g (Node.set_fy p (Node.set_fx q n)) = g n) ->
  forall (moves : list ATNGraphDragEvent) (r : ATNGraphRenderer),
    map g (this_nodes (fold_left dragged moves r)) = map g (this_nodes r).
Proof.
  intros Hg. induction moves as [|e rest IH]; intros r; [reflexivity|].
  cbn [fold_left]. rewrite IH. unfold dragged.
  rewrite this_nodes_with_nodes. apply map_update_node. intros n. apply Hg.
Qed.

Lemma dragSequence_keeps {B : Type} (g : IATNGraphLayoutNode -> B) :
  (forall p q n, g (Node.set_fy p (Node.set_fx q n)) = g n) ->
  forall (r : ATNGraphRenderer) (start : ATNGraphDragEvent)
         (moves : list ATNGraphDragEvent),
    map g (this_nodes (dragSequence r start moves)) = map g (this_nodes r).
Proof.
  intros Hg r start moves. unfold dragSequence.
  rewrite (drag_moves_keep g Hg). unfold dragStarted.
  rewrite this_nodes_with_nodes.
  rewrite map_update_node by (intros n; apply Hg).
  now destruct (DragEvent.active start =? 0)%Z.
Qed.

(** X13.  A reset wipes out every drag: after any drag sequence,
    [resetTransformation] leaves the same nodes and the same transform as it
    leaves without the drag. *)
Theorem resetTransformation_after_drag
    (r : ATNGraphRenderer) (start : ATNGraphDragEvent)
    (moves : list ATNGraphDragEvent) :
  this_nodes (resetTransformation (dragSequence r start moves))
    = this_nodes (resetTransformation r) /\
  zoomTransform (resetTransformation (dragSequence r start moves))
    = zoomTransform (resetTransformation r).
Proof.
  split.
  - rewrite !this_nodes_resetTransformation.
    apply dragSequence_keeps. intros p q n. apply resetNode_ignores_pins.
  - unfold dragSequence. rewrite drag_moves_as_update.
    unfold dragStarted.
    destruct (DragEvent.active start =? 0)%Z; reflexivity.
Qed.

Lemma drag_moves_other_nodes (subject j : nat) (moves : list ATNGraphDragEvent) :
  Forall (fun e => DragEvent.subject e = subject) moves ->
  j <> subject ->
  forall r : ATNGraphRenderer,
    nth_error (this_nodes (fold_left dragged moves r)) j
    = nth_error (this_nodes r) j.
Proof.
  intros Hall Hj. induction Hall as [|e rest He _ IH]; intros r; [reflexivity|].
  cbn [fold_left]. rewrite IH. unfold dragged.
  rewrite this_nodes_with_nodes, nth_error_update_node, He.
  apply Nat.eqb_neq in Hj. now rewrite Hj.
Qed.

(** X14.  A drag sequence changes nothing in the nodes but pins: every node
    keeps its name, type, position and width, the number of nodes stays, and
    when all events are for the same node, every other node keeps its pins
    too. *)
Theorem dragSequence_changes_pins_only
    (r : ATNGraphRenderer) (start : ATNGraphDragEvent)
    (moves : list ATNGraphDragEvent) :
  map unpinned (this_nodes (dragSequence r start moves))
    = map unpinned (this_nodes r) /\
  List.length (this_nodes (dragSequence r start moves))
    = List.length (this_nodes r) /\
  (Forall (fun e => DragEvent.subject e = DragEvent.subject start) moves ->
   forall j : nat,
     j <> DragEvent.subject start ->
     nth_error (this_nodes (dragSequence r start moves)) j
     = nth_error (this_nodes r) j).
Proof.
  assert (E : map unpinned (this_nodes (dragSequence r start moves))
              = map unpinned (this_nodes r)).
  { apply dragSequence_keeps. intros p q n. now destruct n. }
  split; [exact E|]. split.
  - rewrite <- (length_map unpinned), E. apply length_map.
  - intros Hall j Hj. unfold dragSequence.
    rewrite (drag_moves_other_nodes _ j moves Hall Hj).
    unfold dragStarted. rewrite this_nodes_with_nodes, nth_error_update_node.
    apply Nat.eqb_neq in Hj. rewrite Hj.
    now destruct (DragEvent.active start =? 0)%Z.
Qed.

Lemma dragSequence_changes_pins_only_witness :
  let start := DragEvent.mk 0 (Fin 13) (Fin 7) 0 in
  let moves := [DragEvent.mk 1 (Fin 20) (Fin 3) 0;
                DragEvent.mk 1 (Fin 31) (Fin (-10)) 0] in
  Forall (fun e => DragEvent.subject e = DragEvent.subject start) moves /\
  nth_error (this_nodes (dragSequence sample_renderer start moves)) 1
    = nth_error (this_nodes sample_renderer) 1.
Proof.
  intros start moves.
  assert (H : Forall (fun e => DragEvent.subject e = DragEvent.subject start)
                     moves) by (repeat constructor).
  split; [exact H|].
  apply (proj2 (proj2 (dragSequence_changes_pins_only sample_renderer start
                         moves)) H).
  discriminate.
Defined.

(** X15.  A drag sequence leaves the renderer as it was but for the nodes
    and the simulation: the transform, the links and the options stay; and
    the simulation is restarted, with the alpha target 0.3, exactly when the
    start event says that no other drag is active. *)
Theorem dragSequence_frame
    (r : ATNGraphRenderer) (start : ATNGraphDragEvent)
    (moves : list ATNGraphDragEvent) :
  dragSequence r start moves =
  with_nodes (this_nodes (dragSequence r start moves))
    (with_simulation
       (if (DragEvent.active start =? 0)%Z
        then D3.mkSimulation (Fin (3 # 10)) true
        else simulation r)
       r).
Proof.
  unfold dragSequence. etransitivity; [apply drag_moves_as_update|].
  unfold dragStarted.
  destruct r as [[nm mx [ns ls] sc tr] sv zt sim].
  destruct (DragEvent.active start =? 0)%Z; reflexivity.
Qed.

(** X16.  A double click releases whatever a drag has pinned: after any
    drag sequence, double clicking a node leaves it as a double click
    without the drag would, with both pins undefined. *)
Theorem doubleClicked_after_drag
    (r : ATNGraphRenderer) (start : ATNGraphDragEvent)
    (moves : list ATNGraphDragEvent) :
  map doubleClicked (this_nodes (dragSequence r start moves))
    = map doubleClicked (this_nodes r) /\
  Forall (fun node => Node.fx node = PinUndefined /\ Node.fy node = PinUndefined)
         (map doubleClicked (this_nodes (dragSequence r start moves))).
Proof.
  split.
  - apply dragSequence_keeps. intros p q n. now destruct n.
  - apply Forall_forall. intros node Hin. apply in_map_iff in Hin.
    destruct Hin as (n & <- & _). split; reflexivity.
Qed.

(** ** What a completed render has drawn *)

Lemma forEach_nth {A B : Type} (f : A -> Completion B) (l : list A) :
  forall bs, forEach f l = Normal bs ->
  forall i a, nth_error l i = Some a ->
  exists b, nth_error bs i = Some b /\ f a = Normal b.
Proof.
  induction l as [|a0 rest IH]; intros bs H i a Hi.
  - destruct i; discriminate.
  - cbn in H. destruct (f a0) as [b0|e] eqn:E0; cbn in H; [|discriminate].
    destruct (forEach f rest) as [bs'|e]; cbn in H; [|discriminate].
    injection H as <-. destruct i as [|i]; cbn in Hi |- *.
    + injection Hi as <-. eauto.
    + exact (IH bs' eq_refl i a Hi).
Qed.

(** X17.  The rectangle of a rule node is made wide enough for its label:
    for a measured length that is finite, the width is an integer of at
    least 90 and at least the length plus the border of 20, and less than
    one unit more than that when the label is longer than 70.  Nodes of the
    other types are left as they are. *)
Theorem resizeRect_width (measure : string -> number)
    (node : IATNGraphLayoutNode) (len : Q) :
  measure (Node.name node) = Fin len ->
  (Node.type node <> ATNRuleType -> resizeRect measure node = node) /\
  (Node.type node = ATNRuleType ->
   exists n : Z,
     resizeRect measure node
       = Node.set_width (Some (Fin (inject_Z n + 20))) node /\
     (70 <= n)%Z /\
     (len <= inject_Z n)%Q /\
     (n = 70%Z \/ inject_Z n < len + 1)%Q).
Proof.
  intros Hlen. unfold resizeRect. split.
  - intros H. apply Z.eqb_neq in H. now rewrite H.
  - intros H. rewrite H, Z.eqb_refl, Hlen. cbn [ceil ltb].
    pose proof (Qle_ceiling len) as Hup.
    pose proof (Qceiling_lt len) as Hdown.
    destruct (Qle_bool 70 (inject_Z (Qceiling len))) eqn:E; cbn [negb].
    + apply Qle_bool_iff in E. exists (Qceiling len).
      split; [reflexivity|].
      split; [change 70%Q with (inject_Z 70) in E; now rewrite <- Zle_Qle in E|].
      split; [exact Hup|]. right.
      unfold Z.sub in Hdown. rewrite inject_Z_plus in Hdown.
      change (inject_Z (- (1))) with (-1)%Q in Hdown. lra.
    + exists 70%Z. split; [reflexivity|]. split; [lia|].
      split; [|now left].
      assert (H70 : ~ (70 <= inject_Z (Qceiling len))%Q)
        by (intros C; apply Qle_bool_iff in C; congruence).
      change (inject_Z 70) with 70%Q. lra.
Qed.

Lemma resizeRect_width_witness :
  sample_measure (Node.name rule_far) = Fin (inject_Z 32) /\
  exists n : Z,
    resizeRect sample_measure rule_far
      = Node.set_width (Some (Fin (inject_Z n + 20))) rule_far /\
    (70 <= n)%Z /\
    (inject_Z 32 <= inject_Z n)%Q /\
    (n = 70%Z \/ inject_Z n < inject_Z 32 + 1)%Q.
Proof.
  split; [reflexivity|].
  apply (proj2 (resizeRect_width sample_measure rule_far (inject_Z 32) eq_refl)).
  reflexivity.
Defined.

(** X18.  When [render] completes: every link has got the marker of the
    shape of its target, the rectangle marker exactly for a target of the
    rule type; every node has a known state type and has got its figure (a
    rectangle exactly for the rule type), its name as text and the short
    name of its type as description; and the nodes are the reset and resized
    nodes, in their order. *)
Theorem render_result (measure : string -> number)
    (r r' : ATNGraphRenderer) (scene : Scene) :
  render measure r = Normal (r', scene) ->
  (forall i link,
      nth_error (links (data (this_data r))) i = Some link ->
      exists node,
        element_at (this_nodes r) (Link.target link) = Some node /\
        nth_error (lines scene) i =
          Some (if (Node.type node =? ATNRuleType)%Z
                then "url(#transitionEndRect)"%string
                else "url(#transitionEndCircle)"%string))
  /\
  (forall j node,
      nth_error (this_nodes r) j = Some node ->
      known_type node /\
      exists fig info,
        element stateType (Node.type node) = Some info /\
        nth_error (figures scene) j = Some fig /\
        shape fig =
          (if (Node.type node =? ATNRuleType)%Z
           then Rect 50 50 (-25) 5
                  (if String.eqb (Node.name node) (objectName (this_data r))
                   then 20 else 5)
           else Circle 30) /\
        title fig = long info /\
        nth_error (text scene) j = Some (Node.name node) /\
        nth_error (descriptions scene) j = Some (short info))
  /\
  this_nodes r' = map (resizeRect measure) (map resetNode (this_nodes r)) /\
  linkLabels scene =
    map (appendLinkText (maxLabelCount (this_data r))) (links (data (this_data r))).
Proof.
  unfold render. rewrite this_nodes_resetTransformation.
  change (links (data (this_data (resetTransformation r))))
    with (links (data (this_data r))).
  change (objectName (this_data (resetTransformation r)))
    with (objectName (this_data r)).
  change (maxLabelCount (this_data (resetTransformation r)))
    with (maxLabelCount (this_data r)).
  destruct (forEach (markerEnd _) _) as [ls|e] eqn:Els; cbn [bind];
    [|discriminate].
  destruct (forEach (renderFigure _) _) as [fs|e] eqn:Efs; cbn [bind];
    [|discriminate].
  destruct (forEach description _) as [ds|e] eqn:Eds; cbn [bind];
    [|discriminate].
  destruct (forceLink _ _) as [ends|e]; cbn [bind]; [|discriminate].
  intros [= <- <-]. cbn [lines figures text descriptions linkLabels].
  rewrite this_nodes_with_links, this_nodes_with_nodes.
  split; [|split; [|split; reflexivity]].
  - intros i link Hi.
    destruct (forEach_nth _ _ _ Els i link Hi) as (marker & Hm & Hmarker).
    unfold markerEnd in Hmarker. rewrite element_at_map in Hmarker.
    destruct (element_at (this_nodes r) (Link.target link)) as [node|];
      cbn in Hmarker; [|discriminate].
    exists node. split; [reflexivity|]. rewrite Hm.
    destruct (resetNode_fields node) as (_ & _ & _ & Ety & _).
    rewrite Ety in Hmarker.
    destruct (Node.type node =? ATNRuleType)%Z; congruence.
  - intros j node Hj.
    assert (Hj1 : nth_error (map resetNode (this_nodes r)) j
                  = Some (resetNode node))
      by (now rewrite nth_error_map, Hj).
    assert (Hj2 : nth_error (map (resizeRect measure)
                                 (map resetNode (this_nodes r))) j
                  = Some (resizeRect measure (resetNode node)))
      by (now rewrite nth_error_map, Hj1).
    destruct (forEach_nth _ _ _ Efs j _ Hj1) as (fig & Hfig & Hrender).
    destruct (forEach_nth _ _ _ Eds j _ Hj2) as (d & Hd & Hdescr).
    destruct (resetNode_fields node) as (_ & _ & _ & Ety & Enm & _).
    assert (Hknown : known_type node).
    { unfold known_type.
      destruct (Z_le_dec 0 (Node.type node));
      destruct (Z_le_dec (Node.type node) 12); try (split; assumption);
      rewrite renderFigure_unknown in Hrender
        by (unfold known_type; rewrite Ety; lia); discriminate. }
    split; [exact Hknown|].
    destruct (renderFigure_known (objectName (this_data r)) (resetNode node))
      as (info & Einfo & Efig & _); [now apply resetNode_known_type|].
    rewrite Ety in Einfo. rewrite Efig, Ety, Enm in Hrender.
    injection Hrender as Efigure.
    exists fig, info. split; [exact Einfo|]. split; [exact Hfig|].
    rewrite <- Efigure. cbn [shape title]. split; [reflexivity|]. split; [reflexivity|].
    split; [rewrite <- Enm; apply map_nth_error; exact Hj1|].
    unfold description in Hdescr. rewrite resizeRect_type, Ety, Einfo in Hdescr.
    cbn in Hdescr. now injection Hdescr as <-.
Qed.

Lemma render_result_witness :
  exists r' scene,
    render sample_measure sample_renderer = Normal (r', scene) /\
    (forall i link,
        nth_error (links (data (this_data sample_renderer))) i = Some link ->
        exists node,
          element_at (this_nodes sample_renderer) (Link.target link)
            = Some node /\
          nth_error (lines scene) i =
            Some (if (Node.type node =? ATNRuleType)%Z
                  then "url(#transitionEndRect)"%string
                  else "url(#transitionEndCircle)"%string)) /\
    this_nodes r'
      = map (resizeRect sample_measure)
            (map resetNode (this_nodes sample_renderer)).
Proof.
  eexists _, _. split; [vm_compute; reflexivity|].
  match goal with
  | |- context [lines ?sc] =>
      match goal with
      | |- context [this_nodes ?rr = _] =>
          pose proof (render_result sample_measure sample_renderer rr sc) as H
      end
  end.
  destruct H as (H1 & _ & H3 & _); [vm_compute; reflexivity|].
  split; [exact H1|exact H3].
Defined.

(** * The geometry as the code computes it, in binary64 arithmetic *)

(** ** Which rounded results are finite *)

Lemma finite_rn (a : number) : finite (Double.rn a) = true -> finite a = true.
Proof. destruct a; cbn; auto. Qed.

Lemma finite_dadd (a b : number) :
  finite (a +^ b) = true -> finite a = true /\ finite b = true.
Proof.
  intros H. apply finite_rn in H. rewrite finite_add in H.
  now apply andb_true_iff.
Qed.

Lemma finite_dsub (a b : number) :
  finite (a -^ b) = true -> finite a = true /\ finite b = true.
Proof.
  intros H. apply finite_rn in H. rewrite finite_sub in H.
  now apply andb_true_iff.
Qed.

Lemma finite_dmul (a b : number) :
  finite (a *^ b) = true -> finite a = true /\ finite b = true.
Proof.
  intros H. apply finite_rn in H. rewrite finite_mul in H.
  now apply andb_true_iff.
Qed.

Lemma finite_ddiv (a b : number) :
  finite (a /^ b) = true -> finite a = true.
Proof. intros H. apply finite_rn in H. now apply finite_div_numerator in H. Qed.

(** ** Rounding to the nearest binary64 number *)

(** [pow2] is the power of 2 of the rationals. *)
Lemma pow2_Qpower (e : Z) : Double.pow2 e == 2 ^ e.
Proof.
  destruct e as [|p|p]; cbn [Double.pow2].
  - reflexivity.
  - apply (Zpower_Qpower 2 (Zpos p)). lia.
  - change (2 ^ Z.neg p) with (/ (2 ^ Z.pos p)).
    rewrite <- (Zpower_Qpower 2 (Zpos p)) by lia.
    rewrite <- Pos2Z.inj_pow. reflexivity.
Qed.

Lemma pow2_pos (e : Z) : 0 < Double.pow2 e.
Proof. rewrite pow2_Qpower. apply Qpower_0_lt. reflexivity. Qed.

Lemma pow2_add (a b : Z) : Double.pow2 (a + b) == Double.pow2 a * Double.pow2 b.
Proof.
  rewrite !pow2_Qpower. apply Qpower_plus. discriminate.
Qed.

Lemma pow2_le (a b : Z) : (a <= b)%Z -> Double.pow2 a <= Double.pow2 b.
Proof.
  intros H. rewrite !pow2_Qpower. apply Qpower_le_compat_l; [exact H|discriminate].
Qed.

Lemma pow2_lt_inv (a b : Z) : Double.pow2 a < Double.pow2 b -> (a < b)%Z.
Proof.
  rewrite !pow2_Qpower. intros H. apply (Qpower_lt_compat_l_inv 2); [exact H|reflexivity].
Qed.

Lemma pow2_nonneg_Z (a : Z) : (0 <= a)%Z -> Double.pow2 a == inject_Z (2 ^ a).
Proof.
  intros H. rewrite pow2_Qpower. symmetry. apply (Zpower_Qpower 2 a H).
Qed.

(** [ilog2 q] is the exponent of the power of 2 at or below [q], and the
    only one. *)
Lemma ilog2_spec (q : Q) :
  0 < q -> Double.pow2 (Double.ilog2 q) <= q < Double.pow2 (Double.ilog2 q + 1).
Proof.
  intros Hq. unfold Double.ilog2.
  destruct q as [n d]. cbn [Qnum Qden].
  assert (Hn : (0 < n)%Z).
  { unfold Qlt in Hq. cbn in Hq. lia. }
  set (a := Z.log2 n). set (b := Z.log2 (Zpos d)).
  destruct (Z.log2_spec n Hn) as [Ha1 Ha2]. fold a in Ha1, Ha2.
  destruct (Z.log2_spec (Zpos d) (Pos2Z.is_pos d)) as [Hb1 Hb2]. fold b in Hb1, Hb2.
  assert (Ha0 : (0 <= a)%Z) by apply Z.log2_nonneg.
  assert (Hb0 : (0 <= b)%Z) by apply Z.log2_nonneg.
  assert (EA : Double.pow2 (a - b) * Double.pow2 b == Double.pow2 a).
  { rewrite <- pow2_add. replace (a - b + b)%Z with a by lia. reflexivity. }
  assert (E1 : Double.pow2 (a - b + 1) == 2 * Double.pow2 (a - b)).
  { rewrite pow2_add. change (Double.pow2 1) with 2. ring. }
  assert (E2 : Double.pow2 (a - b) == 2 * Double.pow2 (a - b - 1)).
  { replace (a - b)%Z with ((a - b - 1) + 1)%Z at 1 by lia.
    rewrite pow2_add. change (Double.pow2 1) with 2. ring. }
  assert (EQ : (n # d) * inject_Z (Zpos d) == inject_Z n).
  { unfold Qeq, Qmult, inject_Z. cbn. lia. }
  pose proof (pow2_nonneg_Z a Ha0) as PA.
  pose proof (pow2_nonneg_Z b Hb0) as PB.
  assert (A1 : Double.pow2 a <= inject_Z n).
  { rewrite PA. rewrite <- Zle_Qle. exact Ha1. }
  assert (A2 : inject_Z n < 2 * Double.pow2 a).
  { rewrite PA. change 2 with (inject_Z 2). rewrite <- inject_Z_mult, <- Zlt_Qlt.
    rewrite Z.pow_succ_r in Ha2 by exact Ha0. exact Ha2. }
  assert (B1 : Double.pow2 b <= inject_Z (Zpos d)).
  { rewrite PB. rewrite <- Zle_Qle. exact Hb1. }
  assert (B2 : inject_Z (Zpos d) < 2 * Double.pow2 b).
  { rewrite PB. change 2 with (inject_Z 2). rewrite <- inject_Z_mult, <- Zlt_Qlt.
    rewrite Z.pow_succ_r in Hb2 by exact Hb0. exact Hb2. }
  pose proof (pow2_pos (a - b - 1)) as P0.
  pose proof (pow2_pos b) as P1.
  set (X := inject_Z n) in *. set (D := inject_Z (Zpos d)) in *.
  set (u := n # d) in *.
  set (A := Double.pow2 a) in *. set (B := Double.pow2 b) in *.
  set (v := Double.pow2 (a - b)) in *. set (w := Double.pow2 (a - b - 1)) in *.
  assert (U1 : w < u).
  { apply Qnot_le_lt. intros C.
    assert (u * D <= w * D) by (apply Qmult_le_compat_r; lra).
    assert (w * D < w * (2 * B)) by (apply Qmult_lt_l; lra).
    assert (w * (2 * B) == A) by (rewrite <- EA, E2; ring).
    lra. }
  assert (U2 : u < 2 * v).
  { apply Qnot_le_lt. intros C.
    assert (2 * v * D <= u * D) by (apply Qmult_le_compat_r; lra).
    assert (2 * v * B <= 2 * v * D) by (apply Qmult_le_l; lra).
    assert (2 * v * B == 2 * A) by (rewrite <- EA; ring).
    lra. }
  destruct (Qle_bool v u) eqn:E.
  - apply Qle_bool_iff in E. split; [exact E|]. rewrite E1. exact U2.
  - assert (~ v <= u) by (intros C; apply Qle_bool_iff in C; congruence).
    replace (a - b - 1 + 1)%Z with (a - b)%Z by lia. fold v. fold w.
    split; lra.
Qed.

Lemma ilog2_unique (q : Q) (e : Z) :
  Double.pow2 e <= q < Double.pow2 (e + 1) -> Double.ilog2 q = e.
Proof.
  intros [H1 H2].
  assert (Hq : 0 < q) by (pose proof (pow2_pos e); lra).
  destruct (ilog2_spec q Hq) as [S1 S2].
  assert (L1 : (e < Double.ilog2 q + 1)%Z) by (apply pow2_lt_inv; lra).
  assert (L2 : (Double.ilog2 q < e + 1)%Z) by (apply pow2_lt_inv; lra).
  lia.
Qed.

Lemma ilog2_comp (q q' : Q) : 0 < q -> q == q' -> Double.ilog2 q = Double.ilog2 q'.
Proof.
  intros Hq E. symmetry. apply ilog2_unique. rewrite <- E. now apply ilog2_spec.
Qed.

(** [rint q] is the integer below [q] or the one above it, whichever is
    nearer. *)
Lemma rint_cases (q : Q) :
  (Double.rint q = Qfloor q /\ q - inject_Z (Qfloor q) <= 1 # 2) \/
  (Double.rint q = (Qfloor q + 1)%Z /\ 1 # 2 <= q - inject_Z (Qfloor q)).
Proof.
  unfold Double.rint.
  destruct (Qcompare_spec (q - inject_Z (Qfloor q)) (1 # 2)) as [E|E|E].
  - destruct (Z.even (Qfloor q)); [left|right]; split; auto; lra.
  - left. split; [reflexivity|lra].
  - right. split; [reflexivity|lra].
Qed.

Lemma floor_bounds (q : Q) :
  inject_Z (Qfloor q) <= q < inject_Z (Qfloor q) + 1.
Proof.
  split; [apply Qfloor_le|].
  pose proof (Qlt_floor q) as H. rewrite inject_Z_plus in H. exact H.
Qed.

Lemma rint_error (q : Q) : Qabs (inject_Z (Double.rint q) - q) <= 1 # 2.
Proof.
  apply Qabs_Qle_condition.
  pose proof (floor_bounds q) as [F1 F2].
  destruct (rint_cases q) as [[-> H]|[-> H]].
  - lra.
  - rewrite inject_Z_plus. change (inject_Z 1) with 1. lra.
Qed.

Lemma rint_ge (q : Q) (n : Z) : inject_Z n <= q -> (n <= Double.rint q)%Z.
Proof.
  intros H. apply Qfloor_resp_le in H. rewrite Qfloor_Z in H.
  destruct (rint_cases q) as [[-> _]|[-> _]]; lia.
Qed.

Lemma rint_le (q : Q) (n : Z) : q <= inject_Z n -> (Double.rint q <= n)%Z.
Proof.
  intros H. pose proof (floor_bounds q) as [F1 F2].
  assert (L : (Qfloor q <= n)%Z) by (rewrite Zle_Qle; lra).
  destruct (rint_cases q) as [[-> _]|[-> H']]; [exact L|].
  assert (Qfloor q <> n); [|lia].
  intros E. rewrite E in H'. lra.
Qed.

Lemma rint_comp (q q' : Q) : q == q' -> Double.rint q = Double.rint q'.
Proof.
  intros E. unfold Double.rint.
  rewrite (Qfloor_comp _ _ E).
  assert (E' : q - inject_Z (Qfloor q') == q' - inject_Z (Qfloor q'))
    by (rewrite E; reflexivity).
  now rewrite (Qcompare_comp _ _ E' _ _ (Qeq_refl (1 # 2))).
Qed.

Lemma rint_Z (n : Z) : Double.rint (inject_Z n) = n.
Proof.
  apply Z.le_antisymm; [apply rint_le|apply rint_ge]; apply Qle_refl.
Qed.

Lemma rint_opp (q : Q) : Double.rint (- q) = (- Double.rint q)%Z.
Proof.
  pose proof (floor_bounds q) as [F1 F2].
  pose proof (floor_bounds (- q)) as [G1 G2].
  set (f := Qfloor q) in *. set (g := Qfloor (- q)) in *.
  destruct (Qeq_dec q (inject_Z f)) as [E|N].
  - rewrite (rint_comp _ _ E), rint_Z.
    assert (E' : - q == inject_Z (- f)) by (rewrite inject_Z_opp, E; reflexivity).
    now rewrite (rint_comp _ _ E'), rint_Z.
  - assert (Hg : g = (- f - 1)%Z).
    { assert (inject_Z g < inject_Z (- f)) by (rewrite inject_Z_opp; lra).
      assert (inject_Z (- f - 2) < inject_Z g).
      { unfold Z.sub. rewrite !inject_Z_plus, inject_Z_opp.
        change (inject_Z (- (2))) with (- (2)). lra. }
      rewrite <- Zlt_Qlt in *. lia. }
    unfold Double.rint. fold f. fold g.
    assert (Eg : inject_Z g == - inject_Z f - 1).
    { rewrite Hg. unfold Z.sub. rewrite inject_Z_plus, inject_Z_opp. reflexivity. }
    destruct (Qcompare_spec (q - inject_Z f) (1 # 2)) as [E|E|E];
    destruct (Qcompare_spec (- q - inject_Z g) (1 # 2)) as [E'|E'|E'];
      try lra; try lia.
    rewrite Hg. replace (- f - 1)%Z with (- (f + 1))%Z by lia.
    rewrite Z.even_opp. replace (f + 1)%Z with (Z.succ f) by lia.
    rewrite Z.even_succ, <- Z.negb_even.
    destruct (Z.even f); cbn; lia.
Qed.

Lemma Qabs_pos_nonzero (q : Q) : ~ q == 0 -> 0 < Qabs q.
Proof.
  intros H. destruct (Qlt_le_dec 0 (Qabs q)) as [L|L]; [exact L|].
  exfalso. apply H. pose proof (Qabs_nonneg q).
  apply Qabs_Qle_condition in L. lra.
Qed.

(** Rounding depends on the value of the rational only, and commutes
    with the change of sign. *)
Lemma rnd_comp (q q' : Q) : q == q' -> Double.rnd q = Double.rnd q'.
Proof.
  intros E. unfold Double.rnd.
  rewrite (Qeqb_comp _ _ E _ _ (Qeq_refl 0)).
  destruct (Qeq_bool q' 0) eqn:Z; [reflexivity|].
  apply Qeq_bool_neq in Z.
  assert (Ea : Qabs q == Qabs q') by (rewrite E; reflexivity).
  assert (Hq : ~ q == 0) by (rewrite E; exact Z).
  rewrite (ilog2_comp _ _ (Qabs_pos_nonzero q Hq) Ea).
  set (k := Z.max _ _).
  assert (Ed : q / Double.pow2 k == q' / Double.pow2 k) by (rewrite E; reflexivity).
  rewrite (rint_comp _ _ Ed).
  rewrite (Qleb_comp _ _ (Qeq_refl 0) _ _ E).
  reflexivity.
Qed.

Lemma rnd_opp (q : Q) : Double.rnd (- q) = neg (Double.rnd q).
Proof.
  unfold Double.rnd.
  assert (Ez : Qeq_bool (- q) 0 = Qeq_bool q 0).
  { destruct (Qeq_bool q 0) eqn:Z.
    - apply Qeq_bool_iff in Z. apply Qeq_bool_iff. rewrite Z. reflexivity.
    - apply Qeq_bool_neq in Z. destruct (Qeq_bool (- q) 0) eqn:Z'; [|reflexivity].
      apply Qeq_bool_iff in Z'. exfalso. apply Z. lra. }
  rewrite Ez. destruct (Qeq_bool q 0) eqn:Z; [reflexivity|].
  apply Qeq_bool_neq in Z.
  assert (Hq : ~ - q == 0) by (intros C; apply Z; lra).
  rewrite (ilog2_comp _ _ (Qabs_pos_nonzero _ Hq) (Qabs_opp q)).
  set (k := Z.max _ _).
  assert (Ed : - q / Double.pow2 k == - (q / Double.pow2 k)).
  { unfold Qdiv. ring. }
  rewrite (rint_comp _ _ Ed), rint_opp.
  set (m := Double.rint (q / Double.pow2 k)).
  assert (Er : Qred (inject_Z (- m) * Double.pow2 k)
               = - Qred (inject_Z m * Double.pow2 k)).
  { rewrite <- Qred_opp. apply Qred_complete. rewrite inject_Z_opp. ring. }
  rewrite Er.
  rewrite (Qleb_comp _ _ (Qeq_refl _) _ _ (Qabs_opp _)).
  destruct (Qle_bool _ (Qabs _)); [|reflexivity].
  destruct (Qle_bool 0 q) eqn:S1; destruct (Qle_bool 0 (- q)) eqn:S2;
    try reflexivity.
  - apply Qle_bool_iff in S1, S2. exfalso. apply Z. lra.
  - assert (~ 0 <= q) by (intros C; apply Qle_bool_iff in C; congruence).
    assert (~ 0 <= - q) by (intros C; apply Qle_bool_iff in C; congruence).
    lra.
Qed.

Lemma rn_neg (a : number) : Double.rn (neg a) = neg (Double.rn a).
Proof. destruct a; cbn; [apply rnd_opp|reflexivity..]. Qed.

(** The rounding of a [q] other than 0. *)
Lemma rnd_nonzero (q : Q) :
  ~ q == 0 ->
  Double.rnd q =
  let r := Qred (inject_Z (Double.rint (q / Double.pow2 (Double.ulp_exp q)))
                 * Double.pow2 (Double.ulp_exp q)) in
  if Qle_bool (Double.pow2 1024) (Qabs r)
  then (if Qle_bool 0 q then PInf else NInf) else Fin r.
Proof.
  intros H. unfold Double.rnd.
  destruct (Qeq_bool q 0) eqn:Z; [|reflexivity].
  apply Qeq_bool_iff in Z. contradiction.
Qed.

Lemma pow2_neg_inv (k : Z) : Double.pow2 k * Double.pow2 (- k) == 1.
Proof. rewrite <- pow2_add. replace (k + - k)%Z with 0%Z by lia. reflexivity. Qed.

(** Rounding does not cross an integer below [2 ^ 53]. *)
Lemma rnd_between (a b : Z) (q : Q) :
  (- 2 ^ 53 < a)%Z -> (b < 2 ^ 53)%Z ->
  inject_Z a <= q <= inject_Z b ->
  exists r : Q, Double.rnd q = Fin r /\ inject_Z a <= r <= inject_Z b.
Proof.
  intros Ha Hb [Hq1 Hq2].
  destruct (Qeq_dec q 0) as [Z|Z].
  - exists 0. rewrite (rnd_comp _ _ Z). split; [reflexivity|lra].
  - rewrite (rnd_nonzero q Z). cbv zeta.
    set (k := Double.ulp_exp q).
    assert (Habs : Qabs q < Double.pow2 53).
    { apply Qabs_Qlt_condition.
      assert (inject_Z (- 2 ^ 53) < inject_Z a) by (now rewrite <- Zlt_Qlt).
      assert (inject_Z b < inject_Z (2 ^ 53)) by (now rewrite <- Zlt_Qlt).
      rewrite (pow2_nonneg_Z 53) by lia.
      rewrite inject_Z_opp in *. lra. }
    assert (Hk : (k <= 0)%Z).
    { destruct (ilog2_spec _ (Qabs_pos_nonzero q Z)) as [S1 _].
      assert (Double.ilog2 (Qabs q) < 53)%Z by (apply pow2_lt_inv; lra).
      unfold k, Double.ulp_exp. lia. }
    pose proof (pow2_pos k) as Pk.
    pose proof (pow2_neg_inv k) as Pinv.
    pose proof (pow2_nonneg_Z (- k) ltac:(lia)) as PZ.
    set (p := Double.pow2 k) in *. set (p' := Double.pow2 (- k)) in *.
    set (N := (2 ^ (- k))%Z) in *.
    assert (Ediv : q / p == q * p').
    { unfold Qdiv. rewrite <- (Qmult_1_r (/ p)), <- Pinv. field. lra. }
    assert (Pp' : 0 < p') by apply pow2_pos.
    set (m := Double.rint (q / p)).
    assert (M1 : (a * N <= m)%Z).
    { apply rint_ge. rewrite Ediv, inject_Z_mult, <- PZ.
      apply Qmult_le_compat_r; lra. }
    assert (M2 : (m <= b * N)%Z).
    { apply rint_le. rewrite Ediv, inject_Z_mult, <- PZ.
      apply Qmult_le_compat_r; lra. }
    assert (R1 : inject_Z a <= inject_Z m * p).
    { rewrite Zle_Qle, inject_Z_mult, <- PZ in M1.
      assert (inject_Z a * p' * p <= inject_Z m * p)
        by (apply Qmult_le_compat_r; lra).
      assert (inject_Z a * p' * p == inject_Z a)
        by (rewrite <- Qmult_assoc, (Qmult_comm p'), Pinv; ring).
      lra. }
    assert (R2 : inject_Z m * p <= inject_Z b).
    { rewrite Zle_Qle, inject_Z_mult, <- PZ in M2.
      assert (inject_Z m * p <= inject_Z b * p' * p)
        by (apply Qmult_le_compat_r; lra).
      assert (inject_Z b * p' * p == inject_Z b)
        by (rewrite <- Qmult_assoc, (Qmult_comm p'), Pinv; ring).
      lra. }
    set (r := Qred (inject_Z m * p)).
    assert (Er : r == inject_Z m * p) by apply Qred_correct.
    assert (Hover : Qle_bool (Double.pow2 1024) (Qabs r) = false).
    { destruct (Qle_bool _ _) eqn:O; [|reflexivity].
      apply Qle_bool_iff in O.
      assert (Double.pow2 53 <= Double.pow2 1024) by (apply pow2_le; lia).
      assert (Qabs r < Double.pow2 53).
      { apply Qabs_Qlt_condition.
        assert (inject_Z (- 2 ^ 53) < inject_Z a) by (now rewrite <- Zlt_Qlt).
        assert (inject_Z b < inject_Z (2 ^ 53)) by (now rewrite <- Zlt_Qlt).
        rewrite (pow2_nonneg_Z 53) by lia.
        rewrite inject_Z_opp in *. lra. }
      lra. }
    rewrite Hover. exists r. split; [reflexivity|lra].
Qed.

Lemma Qabs_bounds (q : Q) : 0 <= Qabs q /\ - Qabs q <= q <= Qabs q.
Proof.
  split; [apply Qabs_nonneg|]. apply Qabs_Qle_condition. apply Qle_refl.
Qed.

Lemma Fin_inj (a b : Q) : Fin a = Fin b -> a = b.
Proof. now intros [= ->]. Qed.

(** The relative error of a rounding is at most [2 ^ -53], the absolute error
    of a rounding to a subnormal number at most [2 ^ -1075]. *)
Lemma rnd_error (q r : Q) :
  Double.rnd q = Fin r ->
  Qabs (r - q) <= Double.pow2 (-53) * Qabs q + Double.pow2 (-1075).
Proof.
  intros H.
  pose proof (pow2_pos (-53)) as U. pose proof (pow2_pos (-1075)) as E.
  pose proof (Qabs_bounds q) as [A0 A1].
  destruct (Qeq_dec q 0) as [Z|Z].
  - rewrite (rnd_comp _ _ Z) in H. injection H as <-.
    apply Qabs_Qle_condition.
    assert (0 <= Double.pow2 (-53) * Qabs q) by (apply Qmult_le_0_compat; lra).
    lra.
  - rewrite (rnd_nonzero q Z) in H. cbv zeta in H.
    destruct (Qle_bool _ _); [destruct (Qle_bool 0 q); discriminate|].
    apply Fin_inj in H. subst r.
    set (k := Double.ulp_exp q). set (p := Double.pow2 k).
    assert (Pp : 0 < p) by apply pow2_pos.
    pose proof (rint_error (q / p)) as R.
    set (m := inject_Z (Double.rint (q / p))) in *.
    apply Qabs_Qle_condition in R.
    assert (Eq : q / p * p == q) by (field; lra).
    assert (B1 : (m - q / p) * p <= (1 # 2) * p)
      by (apply Qmult_le_compat_r; lra).
    assert (B2 : - (1 # 2) * p <= (m - q / p) * p)
      by (apply Qmult_le_compat_r; lra).
    assert (B : - ((1 # 2) * p) <= m * p - q <= (1 # 2) * p).
    { assert ((m - q / p) * p == m * p - q) by (rewrite <- Eq at 2; ring). lra. }
    assert (Hp : (1 # 2) * p
                 <= Double.pow2 (-53) * Qabs q + Double.pow2 (-1075)).
    { destruct (ilog2_spec _ (Qabs_pos_nonzero q Z)) as [S1 _].
      set (e := Double.ilog2 (Qabs q)) in *.
      assert (Eh : forall j, (1 # 2) * Double.pow2 j == Double.pow2 (j - 1)).
      { intros j. replace (j - 1)%Z with (j + -1)%Z by lia.
        rewrite pow2_add. change (Double.pow2 (-1)) with (1 # 2). ring. }
      unfold p. rewrite Eh.
      assert (Ck : k = (e - 52)%Z \/ k = (-1074)%Z) by (unfold k, Double.ulp_exp; fold e; lia).
      destruct Ck as [-> | ->].
      - replace (e - 52 - 1)%Z with (-53 + e)%Z by lia. rewrite pow2_add.
        assert (Double.pow2 (-53) * Double.pow2 e <= Double.pow2 (-53) * Qabs q)
          by (apply Qmult_le_l; lra).
        lra.
      - change (-1074 - 1)%Z with (-1075)%Z.
        assert (0 <= Double.pow2 (-53) * Qabs q) by (apply Qmult_le_0_compat; lra).
        lra. }
    pose proof (Qred_correct (m * p)) as Er.
    apply Qabs_Qle_condition. fold m. fold p.
    set (r := Qred (m * p)) in *. lra.
Qed.

Lemma Qabs_scale_unit (t x : Q) : 0 <= t <= 1 -> Qabs (t * x) <= Qabs x.
Proof.
  intros [H0 H1]. rewrite Qabs_Qmult, (Qabs_pos t H0).
  rewrite <- (Qmult_1_l (Qabs x)) at 2.
  apply Qmult_le_compat_r; [exact H1|apply Qabs_nonneg].
Qed.

Lemma Qabs_le_intro (q b : Q) : - b <= q <= b -> Qabs q <= b.
Proof. intros H. now apply Qabs_Qle_condition. Qed.

Lemma finite_Fin (a : number) : finite a = true -> exists q, a = Fin q.
Proof. destruct a; try discriminate. now exists q. Qed.

(** The error of [x1 + t * (x2 - x1)] computed in binary64, for a parameter
    [t] between 0 and 1. *)
Lemma interpolation_error (x1 x2 t X : Q) :
  0 <= t <= 1 ->
  Fin x1 +^ Fin t *^ (Fin x2 -^ Fin x1) = Fin X ->
  Qabs (X - (x1 + t * (x2 - x1)))
  <= Double.pow2 (-50) * (Qabs x1 + Qabs x2) + Double.pow2 (-1073).
Proof.
  intros Ht H.
  assert (F : finite (Fin x1 +^ Fin t *^ (Fin x2 -^ Fin x1)) = true)
    by now rewrite H.
  apply finite_dadd in F. destruct F as [_ F].
  pose proof F as Fm. apply finite_dmul in F. destruct F as [_ F].
  apply finite_Fin in F. destruct F as [d Ed].
  apply finite_Fin in Fm. destruct Fm as [m Em].
  rewrite Ed in Em. rewrite Ed, Em in H.
  unfold Double.sub, Double.mul, Double.add in Ed, Em, H.
  cbn [sub add mul neg Double.rn] in Ed, Em, H.
  apply rnd_error in Ed, Em, H.
  pose proof (Qabs_scale_unit t d Ht) as Std.
  pose proof (Qabs_scale_unit t (d - (x2 + - x1)) Ht) as Sr.
  assert (Et : t * (x2 - x1) == t * d - t * (d - (x2 + - x1))) by ring.
  assert (E50 : Double.pow2 (-50) == 8 * (1 # 9007199254740992))
    by (vm_compute; reflexivity).
  assert (E1073 : Double.pow2 (-1073) == 4 * Double.pow2 (-1075))
    by (vm_compute; reflexivity).
  pose proof (pow2_pos (-1075)) as Heta.
  change (Double.pow2 (-53)) with (1 # 9007199254740992) in *.
  rewrite E50, E1073, Et.
  set (eta := Double.pow2 (-1075)) in *.
  set (P := t * d) in *. set (R := t * (d - (x2 + - x1))) in *.
  pose proof (Qabs_bounds x1) as [A1 B1].
  pose proof (Qabs_bounds x2) as [A2 B2].
  assert (AD : Qabs (x2 + - x1) <= Qabs x1 + Qabs x2)
    by (apply Qabs_le_intro; lra).
  pose proof Ed as Ed'. apply Qabs_Qle_condition in Ed.
  assert (Ad : Qabs d <= (1 + (1 # 9007199254740992)) * (Qabs x1 + Qabs x2) + eta).
  { apply Qabs_le_intro.
    pose proof (Qabs_bounds (x2 + - x1)) as [A3 B3]. lra. }
  pose proof (Qabs_nonneg (x2 + - x1)) as A3.
  assert (AR : Qabs R <= (1 # 9007199254740992) * (Qabs x1 + Qabs x2) + eta).
  { lra. }
  assert (AP : Qabs P <= (1 + (1 # 9007199254740992)) * (Qabs x1 + Qabs x2) + eta)
    by lra.
  apply Qabs_Qle_condition in Em.
  assert (Am : Qabs m <= (1 + (1 # 9007199254740992)) * Qabs P + eta).
  { apply Qabs_le_intro. pose proof (Qabs_bounds P) as [A4 B4]. lra. }
  assert (Axm : Qabs (x1 + m) <= Qabs x1 + Qabs m).
  { apply Qabs_le_intro. pose proof (Qabs_bounds m) as [A5 B5]. lra. }
  apply Qabs_Qle_condition in H.
  pose proof (Qabs_bounds R) as [A6 B6].
  pose proof (Qabs_nonneg P) as A7. pose proof (Qabs_nonneg m) as A8.
  pose proof (Qabs_nonneg (x1 + m)) as A9.
  apply Qabs_le_intro.
  set (a1 := Qabs x1) in *. set (a2 := Qabs x2) in *.
  set (aP := Qabs P) in *. set (am := Qabs m) in *.
  set (aR := Qabs R) in *. set (axm := Qabs (x1 + m)) in *.
  clearbody a1 a2 aP am aR axm eta P R.
  lra.
Qed.

(** The error of the middle [((tx - h) + (sx + h)) / 2] computed in
    binary64. *)
Lemma middle_error (sx tx h X : Q) :
  ((Fin tx -^ Fin h) +^ (Fin sx +^ Fin h)) /^ Fin 2 = Fin X ->
  Qabs (X - (sx + tx) / 2)
  <= Double.pow2 (-52) * (Qabs sx + Qabs tx + 2 * Qabs h) + Double.pow2 (-1073).
Proof.
  intros H.
  assert (F : finite (((Fin tx -^ Fin h) +^ (Fin sx +^ Fin h)) /^ Fin 2) = true)
    by now rewrite H.
  apply finite_ddiv in F. pose proof F as Fc.
  apply finite_dadd in F. destruct F as [Fa Fb].
  apply finite_Fin in Fa, Fb, Fc.
  destruct Fa as [a Ea], Fb as [b Eb], Fc as [c Ec].
  rewrite Ea, Eb in Ec. rewrite Ea, Eb, Ec in H.
  unfold Double.sub, Double.add, Double.div in Ea, Eb, Ec, H.
  cbn [sub add div neg Double.rn] in Ea, Eb, Ec, H.
  change (Qeq_bool 2 0) with false in H. cbn [Double.rn] in H.
  apply rnd_error in Ea, Eb, Ec, H.
  assert (E52 : Double.pow2 (-52) == 2 * (1 # 9007199254740992))
    by (vm_compute; reflexivity).
  assert (E1073 : Double.pow2 (-1073) == 4 * Double.pow2 (-1075))
    by (vm_compute; reflexivity).
  pose proof (pow2_pos (-1075)) as Heta.
  change (Double.pow2 (-53)) with (1 # 9007199254740992) in *.
  rewrite E52, E1073.
  set (eta := Double.pow2 (-1075)) in *.
  assert (Eh : c / 2 == (1 # 2) * c) by (field).
  assert (Em : (sx + tx) / 2 == (1 # 2) * (sx + tx)) by (field).
  rewrite Em. rewrite Eh in H.
  pose proof (Qabs_bounds sx) as [A1 B1].
  pose proof (Qabs_bounds tx) as [A2 B2].
  pose proof (Qabs_bounds h) as [A3 B3].
  assert (At : Qabs (tx + - h) <= Qabs tx + Qabs h)
    by (apply Qabs_le_intro; lra).
  assert (As : Qabs (sx + h) <= Qabs sx + Qabs h)
    by (apply Qabs_le_intro; lra).
  apply Qabs_Qle_condition in Ea, Eb.
  assert (Aab : Qabs (a + b)
                <= (1 + (1 # 9007199254740992))
                   * (Qabs sx + Qabs tx + 2 * Qabs h) + 2 * eta)
    by (apply Qabs_le_intro; lra).
  pose proof Ec as Ec'. apply Qabs_Qle_condition in Ec.
  assert (Ac : Qabs c <= (1 + (1 # 9007199254740992)) * Qabs (a + b) + eta).
  { apply Qabs_le_intro. pose proof (Qabs_bounds (a + b)) as [A4 B4]. lra. }
  assert (Ahc : Qabs ((1 # 2) * c) <= (1 # 2) * Qabs c).
  { rewrite Qabs_Qmult. apply Qle_refl. }
  apply Qabs_Qle_condition in H.
  pose proof (Qabs_nonneg (a + b)) as A5. pose proof (Qabs_nonneg c) as A6.
  pose proof (Qabs_nonneg ((1 # 2) * c)) as A7.
  apply Qabs_le_intro.
  set (a1 := Qabs sx) in *. set (a2 := Qabs tx) in *. set (a3 := Qabs h) in *.
  set (aab := Qabs (a + b)) in *. set (ac := Qabs c) in *.
  set (ahc := Qabs ((1 # 2) * c)) in *.
  set (at' := Qabs (tx + - h)) in *. set (as' := Qabs (sx + h)) in *.
  clearbody a1 a2 a3 aab ac ahc at' as' eta.
  lra.
Qed.

Lemma half_sum_error (sy ty Y : Q) :
  (Fin ty +^ Fin sy) /^ Fin 2 = Fin Y ->
  Qabs (Y - (sy + ty) / 2)
  <= Double.pow2 (-52) * (Qabs sy + Qabs ty) + Double.pow2 (-1073).
Proof.
  intros H.
  assert (F : finite ((Fin ty +^ Fin sy) /^ Fin 2) = true) by now rewrite H.
  apply finite_ddiv, finite_Fin in F. destruct F as [c Ec].
  rewrite Ec in H.
  unfold Double.add, Double.div in Ec, H.
  cbn [add div Double.rn] in Ec, H.
  change (Qeq_bool 2 0) with false in H. cbn [Double.rn] in H.
  apply rnd_error in Ec, H.
  assert (E52 : Double.pow2 (-52) == 2 * (1 # 9007199254740992))
    by (vm_compute; reflexivity).
  assert (E1073 : Double.pow2 (-1073) == 4 * Double.pow2 (-1075))
    by (vm_compute; reflexivity).
  pose proof (pow2_pos (-1075)) as Heta.
  change (Double.pow2 (-53)) with (1 # 9007199254740992) in *.
  rewrite E52, E1073.
  set (eta := Double.pow2 (-1075)) in *.
  assert (Eh : c / 2 == (1 # 2) * c) by (field).
  assert (Em : (sy + ty) / 2 == (1 # 2) * (sy + ty)) by (field).
  rewrite Em. rewrite Eh in H.
  pose proof (Qabs_bounds sy) as [A1 B1].
  pose proof (Qabs_bounds ty) as [A2 B2].
  assert (As : Qabs (ty + sy) <= Qabs sy + Qabs ty)
    by (apply Qabs_le_intro; lra).
  pose proof Ec as Ec'. apply Qabs_Qle_condition in Ec.
  assert (Ac : Qabs c <= (1 + (1 # 9007199254740992)) * Qabs (ty + sy) + eta).
  { apply Qabs_le_intro. pose proof (Qabs_bounds (ty + sy)) as [A4 B4]. lra. }
  assert (Ahc : Qabs ((1 # 2) * c) <= (1 # 2) * Qabs c).
  { rewrite Qabs_Qmult. apply Qle_refl. }
  apply Qabs_Qle_condition in H.
  pose proof (Qabs_nonneg (ty + sy)) as A5. pose proof (Qabs_nonneg c) as A6.
  pose proof (Qabs_nonneg ((1 # 2) * c)) as A7.
  apply Qabs_le_intro.
  set (a1 := Qabs sy) in *. set (a2 := Qabs ty) in *.
  set (aab := Qabs (ty + sy)) in *. set (ac := Qabs c) in *.
  set (ahc := Qabs ((1 # 2) * c)) in *.
  clearbody a1 a2 aab ac ahc eta.
  lra.
Qed.

(** ** What [lineIntersection] returns *)

Lemma rounded_lineIntersection_eq (line1 line2 : ILine) :
  Rounded.lineIntersection line1 line2 =
  if geb (Rounded.paramS line1 line2) (Fin 0)
     && leb (Rounded.paramS line1 line2) (Fin 1)
     && geb (Rounded.paramT line1 line2) (Fin 0)
     && leb (Rounded.paramT line1 line2) (Fin 1)
  then Some (Rounded.pointAt line1 (Rounded.paramT line1 line2))
  else None.
Proof. reflexivity. Qed.

Lemma rounded_lineIntersection_iff (line1 line2 : ILine) (p : Point) :
  Rounded.lineIntersection line1 line2 = Some p <->
  exists s t : Q,
    Rounded.paramS line1 line2 = Fin s /\
    Rounded.paramT line1 line2 = Fin t /\
    (0 <= s <= 1)%Q /\ (0 <= t <= 1)%Q /\
    p = Rounded.pointAt line1 (Fin t).
Proof.
  rewrite rounded_lineIntersection_eq. split.
  - destruct (_ && _) eqn:Htest; [|discriminate].
    intros [= <-]. repeat rewrite andb_true_iff in Htest.
    destruct Htest as [[[Hs0 Hs1] Ht0] Ht1].
    destruct (unit_range _ Hs0 Hs1) as (s & Es & Rs).
    destruct (unit_range _ Ht0 Ht1) as (t & Et & Rt).
    exists s, t. rewrite Et. repeat split; tauto.
  - intros (s & t & -> & -> & [Hs0 Hs1] & [Ht0 Ht1] & ->).
    unfold geb, leb. apply Qle_bool_iff in Hs0, Hs1, Ht0, Ht1.
    now rewrite Hs0, Hs1, Ht0, Ht1.
Qed.

Lemma rounded_lineIntersection_finite (line1 line2 : ILine) (p : Point) :
  Rounded.lineIntersection line1 line2 = Some p ->
  finite_line line1 = true /\ finite_line line2 = true.
Proof.
  intros H. apply rounded_lineIntersection_iff in H.
  destruct H as (s & t & Es & Et & _).
  assert (Fs : finite (Rounded.paramS line1 line2) = true) by now rewrite Es.
  assert (Ft : finite (Rounded.paramT line1 line2) = true) by now rewrite Et.
  unfold Rounded.paramS in Fs. unfold Rounded.paramT in Ft.
  apply finite_ddiv, finite_dadd in Fs. destruct Fs as [Fs1 Fs2].
  apply finite_dmul in Fs1, Fs2.
  destruct Fs1 as [Fa Fb], Fs2 as [Fc Fd].
  rewrite finite_neg in Fa.
  apply finite_dsub in Fa, Fb, Fc, Fd.
  apply finite_ddiv, finite_dsub in Ft. destruct Ft as [Ft1 Ft2].
  apply finite_dmul in Ft1, Ft2.
  destruct Ft1 as [Fe _], Ft2 as [Ff _].
  apply finite_dsub in Fe, Ff.
  unfold finite_line. repeat rewrite andb_true_iff. tauto.
Qed.

(** C10, as the code has it.  [lineIntersection] returns a point exactly
    when the two parameters it has computed, [s] for [line2] and [t] for
    [line1], are numbers between 0 and 1; the point is then the start of
    [line1] plus [t] times the direction of [line1], every operation rounded
    to binary64, and all the coordinates of the two segments are finite. *)
Theorem lineIntersection_rounded_point :
  (forall (line1 line2 : ILine) (p : Point),
      Rounded.lineIntersection line1 line2 = Some p <->
      exists s t : Q,
        Rounded.paramS line1 line2 = Fin s /\
        Rounded.paramT line1 line2 = Fin t /\
        (0 <= s <= 1)%Q /\ (0 <= t <= 1)%Q /\
        p = Rounded.pointAt line1 (Fin t))
  /\
  (forall (line1 line2 : ILine) (p : Point),
      Rounded.lineIntersection line1 line2 = Some p ->
      finite_line line1 = true /\ finite_line line2 = true).
Proof.
  split; [exact rounded_lineIntersection_iff|exact rounded_lineIntersection_finite].
Qed.

Lemma lineIntersection_rounded_point_witness :
  exists p,
    Rounded.lineIntersection (mkLine 0%num 0%num (Fin 1) (Fin 1))
                             (mkLine 0%num (Fin 1) (Fin 2) 0%num) = Some p /\
    (exists s t : Q,
        Rounded.paramS (mkLine 0%num 0%num (Fin 1) (Fin 1))
                       (mkLine 0%num (Fin 1) (Fin 2) 0%num) = Fin s /\
        Rounded.paramT (mkLine 0%num 0%num (Fin 1) (Fin 1))
                       (mkLine 0%num (Fin 1) (Fin 2) 0%num) = Fin t /\
        (0 <= s <= 1)%Q /\ (0 <= t <= 1)%Q /\
        p = Rounded.pointAt (mkLine 0%num 0%num (Fin 1) (Fin 1)) (Fin t)) /\
    finite_line (mkLine 0%num 0%num (Fin 1) (Fin 1)) = true /\
    finite_line (mkLine 0%num (Fin 1) (Fin 2) 0%num) = true.
Proof.
  eexists. split; [vm_compute; reflexivity|]. split.
  - apply (proj1 lineIntersection_rounded_point). vm_compute. reflexivity.
  - eapply (proj2 lineIntersection_rounded_point). vm_compute. reflexivity.
Defined.

(** C10 as it is written does not hold of the rounded point: for the
    segments from (0, 0) to (1, 1) and from (0, 1) to (2, 0), which cross at
    (2/3, 2/3), the code returns the point with both coordinates
    0.6666666666666666, the binary64 number nearest to 2/3; it lies on the
    first segment and not on the second. *)
Lemma lineIntersection_point_off_line2 :
  let line1 := mkLine 0%num 0%num (Fin 1) (Fin 1) in
  let line2 := mkLine 0%num (Fin 1) (Fin 2) 0%num in
  let p := mkPoint (Fin (6004799503160661 # 9007199254740992))
                   (Fin (6004799503160661 # 9007199254740992)) in
  Rounded.lineIntersection line1 line2 = Some p /\
  Double.dec 6666666666666666 16 = px p /\
  ~ exists u : Q, on_segment line2 p u.
Proof.
  intros line1 line2 p. split; [vm_compute; reflexivity|].
  split; [vm_compute; reflexivity|].
  intros (u & a1 & b1 & a2 & b2 & a & b & E2 & Ep & _ & Ha & Hb).
  injection E2 as <- <- <- <-. injection Ep as <- <-. lra.
Qed.

(** ** The sign of the operands *)

Lemma rn_eqv (a b : number) : eqv a b -> Double.rn a = Double.rn b.
Proof.
  destruct a, b; cbn; try contradiction; try reflexivity. apply rnd_comp.
Qed.

Lemma neg_neg (a : number) : neg (neg a) = a.
Proof.
  destruct a as [[n d]| | |]; cbn; try reflexivity.
  unfold Qopp. cbn. now rewrite Z.opp_involutive.
Qed.

Lemma dsub_dadd (a b : number) : a -^ b = a +^ neg b.
Proof. reflexivity. Qed.

Lemma dadd_comm (a b : number) : a +^ b = b +^ a.
Proof.
  unfold Double.add. apply rn_eqv.
  destruct a, b; cbn; try exact I. ring.
Qed.

Lemma dadd_neg (a b : number) : neg a +^ neg b = neg (a +^ b).
Proof.
  unfold Double.add. rewrite <- rn_neg. apply rn_eqv.
  destruct a, b; cbn; try exact I. ring.
Qed.

Lemma dsub_swap (a b : number) : b -^ a = neg (a -^ b).
Proof.
  rewrite !dsub_dadd, <- dadd_neg, neg_neg. apply dadd_comm.
Qed.

Lemma signed_inf_opp (q : Q) (positive : bool) :
  signed_inf (- q) positive = neg (signed_inf q positive).
Proof.
  unfold signed_inf.
  destruct (Qcompare_spec q 0) as [E|E|E];
  destruct (Qcompare_spec (- q) 0) as [E'|E'|E']; try lra;
    destruct positive; reflexivity.
Qed.

Lemma dmul_neg_l (a b : number) : neg a *^ b = neg (a *^ b).
Proof.
  unfold Double.mul. rewrite <- rn_neg.
  destruct a as [p| | |], b as [q| | |]; cbn [neg mul];
    rewrite ?signed_inf_opp, ?neg_neg; try reflexivity.
  - apply rn_eqv. cbn. ring.
  - unfold signed_inf. destruct (q ?= 0); reflexivity.
  - unfold signed_inf. destruct (q ?= 0); reflexivity.
Qed.

Lemma dmul_neg_r (a b : number) : a *^ neg b = neg (a *^ b).
Proof.
  unfold Double.mul. rewrite <- rn_neg.
  destruct a as [p| | |], b as [q| | |]; cbn [neg mul];
    rewrite ?signed_inf_opp, ?neg_neg; try reflexivity.
  - apply rn_eqv. cbn. ring.
  - unfold signed_inf. destruct (p ?= 0); reflexivity.
  - unfold signed_inf. destruct (p ?= 0); reflexivity.
Qed.

Lemma in_unit_finite (a : number) : Rounded.in_unit a = true -> finite a = true.
Proof. destruct a; cbn; auto; discriminate. Qed.

Lemma finite_rn_inv (a : number) : finite a = false -> finite (Double.rn a) = false.
Proof. destruct a; cbn; auto; discriminate. Qed.

Lemma ddiv_neg_neg (a b : number) :
  neg a /^ neg b = a /^ b \/
  (finite (a /^ b) = false /\ finite (neg a /^ neg b) = false).
Proof.
  unfold Double.div.
  destruct a as [p| | |], b as [q| | |]; cbn [neg div]; auto.
  - destruct (Qeq_dec q 0) as [Z|Z].
    + right.
      assert (Z' : - q == 0) by lra.
      apply Qeq_bool_iff in Z, Z'. rewrite Z, Z'.
      split; apply finite_rn_inv; unfold signed_inf;
        destruct (_ ?= _); reflexivity.
    + left.
      assert (Z' : ~ - q == 0) by lra.
      destruct (Qeq_bool q 0) eqn:B; [apply Qeq_bool_iff in B; contradiction|].
      destruct (Qeq_bool (- q) 0) eqn:B'; [apply Qeq_bool_iff in B'; contradiction|].
      apply rn_eqv. cbn. field. exact Z.
  - destruct (Qeq_dec q 0) as [Z|Z].
    + right. split; apply finite_rn_inv;
        destruct (Qle_bool _ _); reflexivity.
    + left. f_equal.
      destruct (Qle_bool 0 q) eqn:S1; destruct (Qle_bool 0 (- q)) eqn:S2;
        try reflexivity.
      * apply Qle_bool_iff in S1, S2. exfalso. apply Z. lra.
      * assert (~ 0 <= q) by (intros C; apply Qle_bool_iff in C; congruence).
        assert (~ 0 <= - q) by (intros C; apply Qle_bool_iff in C; congruence).
        lra.
  - destruct (Qeq_dec q 0) as [Z|Z].
    + right. split; apply finite_rn_inv;
        destruct (Qle_bool _ _); reflexivity.
    + left. f_equal.
      destruct (Qle_bool 0 q) eqn:S1; destruct (Qle_bool 0 (- q)) eqn:S2;
        try reflexivity.
      * apply Qle_bool_iff in S1, S2. exfalso. apply Z. lra.
      * assert (~ 0 <= q) by (intros C; apply Qle_bool_iff in C; congruence).
        assert (~ 0 <= - q) by (intros C; apply Qle_bool_iff in C; congruence).
        lra.
Qed.

Lemma in_unit_ddiv_neg_neg (a b : number) :
  Rounded.in_unit (neg a /^ neg b) = true -> neg a /^ neg b = a /^ b.
Proof.
  intros H. destruct (ddiv_neg_neg a b) as [E|[_ F]]; [exact E|].
  apply in_unit_finite in H. congruence.
Qed.

Lemma in_unit_ddiv_neg_neg' (a b : number) :
  Rounded.in_unit (a /^ b) = true -> neg a /^ neg b = a /^ b.
Proof.
  intros H. destruct (ddiv_neg_neg a b) as [E|[F _]]; [exact E|].
  apply in_unit_finite in H. congruence.
Qed.

(** ** The two segments in the other order *)

Lemma numerator_swap (u v : number) : neg u -^ neg v = neg (neg v +^ u).
Proof.
  change (neg u -^ neg v) with (neg u +^ neg (neg v)).
  rewrite dadd_neg. f_equal. apply dadd_comm.
Qed.

Lemma numerator_swap' (u v : number) : neg (neg v) +^ neg u = neg (u -^ v).
Proof.
  rewrite dadd_neg. f_equal. apply dadd_comm.
Qed.

Lemma denominator_swap (p q : number) : neg p +^ q = neg (neg q +^ p).
Proof.
  rewrite <- dadd_neg, neg_neg. apply dadd_comm.
Qed.

Lemma paramT_swap (line1 line2 : ILine) :
  exists n d : number,
    Rounded.paramS line1 line2 = n /^ d /\
    Rounded.paramT line2 line1 = neg n /^ neg d.
Proof.
  unfold Rounded.paramS, Rounded.paramT. cbv zeta.
  eexists. eexists. split; [reflexivity|]. f_equal.
  - rewrite (dsub_swap (y1 line1) (y1 line2)), (dsub_swap (x1 line1) (x1 line2)).
    rewrite !dmul_neg_r, dmul_neg_l. apply numerator_swap.
  - rewrite !dmul_neg_l. apply denominator_swap.
Qed.

Lemma paramS_swap (line1 line2 : ILine) :
  exists n d : number,
    Rounded.paramT line1 line2 = n /^ d /\
    Rounded.paramS line2 line1 = neg n /^ neg d.
Proof.
  unfold Rounded.paramS, Rounded.paramT. cbv zeta.
  eexists. eexists. split; [reflexivity|]. f_equal.
  - rewrite (dsub_swap (y1 line1) (y1 line2)), (dsub_swap (x1 line1) (x1 line2)).
    rewrite !dmul_neg_r, !dmul_neg_l. apply numerator_swap'.
  - rewrite !dmul_neg_l. apply denominator_swap.
Qed.

Lemma rounded_lineIntersection_test (line1 line2 : ILine) :
  Rounded.lineIntersection line1 line2 =
  if Rounded.in_unit (Rounded.paramS line1 line2) && Rounded.in_unit (Rounded.paramT line1 line2)
  then Some (Rounded.pointAt line1 (Rounded.paramT line1 line2))
  else None.
Proof.
  rewrite rounded_lineIntersection_eq. unfold Rounded.in_unit.
  rewrite <- !andb_assoc. reflexivity.
Qed.

Lemma params_swap (line1 line2 : ILine) :
  (Rounded.in_unit (Rounded.paramS line1 line2) = true ->
   Rounded.paramT line2 line1 = Rounded.paramS line1 line2) /\
  (Rounded.in_unit (Rounded.paramT line2 line1) = true ->
   Rounded.paramT line2 line1 = Rounded.paramS line1 line2) /\
  (Rounded.in_unit (Rounded.paramT line1 line2) = true ->
   Rounded.paramS line2 line1 = Rounded.paramT line1 line2) /\
  (Rounded.in_unit (Rounded.paramS line2 line1) = true ->
   Rounded.paramS line2 line1 = Rounded.paramT line1 line2).
Proof.
  destruct (paramT_swap line1 line2) as (n & d & -> & ->).
  destruct (paramS_swap line1 line2) as (n' & d' & -> & ->).
  repeat split; intros H.
  - now apply in_unit_ddiv_neg_neg'.
  - now apply in_unit_ddiv_neg_neg.
  - now apply in_unit_ddiv_neg_neg'.
  - now apply in_unit_ddiv_neg_neg.
Qed.

(** X1.  Whether two segments cross does not depend on their order:
    [lineIntersection] returns nothing for [(line1, line2)] exactly when it
    returns nothing for [(line2, line1)].  When it returns a point, the two
    parameters change places, and the call in the other order returns the
    point of [line2] at the parameter [s] of the first call, every operation
    rounded.  (The two points need not have the same coordinates.) *)
Theorem lineIntersection_crossing_symmetric (line1 line2 : ILine) :
  (Rounded.lineIntersection line1 line2 = None <->
   Rounded.lineIntersection line2 line1 = None)
  /\
  (forall p : Point,
      Rounded.lineIntersection line1 line2 = Some p ->
      Rounded.paramS line2 line1 = Rounded.paramT line1 line2 /\
      Rounded.paramT line2 line1 = Rounded.paramS line1 line2 /\
      Rounded.lineIntersection line2 line1
      = Some (Rounded.pointAt line2 (Rounded.paramS line1 line2))).
Proof.
  assert (Hsome : forall l1 l2 p,
             Rounded.lineIntersection l1 l2 = Some p ->
             Rounded.paramS l2 l1 = Rounded.paramT l1 l2 /\
             Rounded.paramT l2 l1 = Rounded.paramS l1 l2 /\
             Rounded.lineIntersection l2 l1
             = Some (Rounded.pointAt l2 (Rounded.paramS l1 l2))).
  { intros l1 l2 p. rewrite !rounded_lineIntersection_test.
    destruct (Rounded.in_unit (Rounded.paramS l1 l2)) eqn:Es; [|discriminate].
    destruct (Rounded.in_unit (Rounded.paramT l1 l2)) eqn:Et; [|discriminate].
    intros _.
    destruct (params_swap l1 l2) as (H1 & _ & H3 & _).
    rewrite (H1 Es), (H3 Et), Es, Et. auto. }
  split; [|apply Hsome].
  split; intros H.
  - destruct (Rounded.lineIntersection line2 line1) as [p|] eqn:E; [|reflexivity].
    apply Hsome in E. destruct E as (_ & _ & E). congruence.
  - destruct (Rounded.lineIntersection line1 line2) as [p|] eqn:E; [|reflexivity].
    apply Hsome in E. destruct E as (_ & _ & E). congruence.
Qed.

Lemma lineIntersection_crossing_symmetric_witness :
  let line1 := mkLine (Fin 0) (Fin 0) (Fin 1) (Fin 1) in
  let line2 := mkLine (Fin 0) (Fin 1) (Fin 2) (Fin 0) in
  Rounded.lineIntersection line1 line2
  = Some (mkPoint (Fin (6004799503160661 # 9007199254740992))
                  (Fin (6004799503160661 # 9007199254740992))) /\
  Rounded.paramS line2 line1 = Rounded.paramT line1 line2 /\
  Rounded.paramT line2 line1 = Rounded.paramS line1 line2 /\
  Rounded.lineIntersection line2 line1
  = Some (Rounded.pointAt line2 (Rounded.paramS line1 line2)).
Proof.
  intros line1 line2.
  assert (H : Rounded.lineIntersection line1 line2
              = Some (mkPoint (Fin (6004799503160661 # 9007199254740992))
                              (Fin (6004799503160661 # 9007199254740992))))
    by (vm_compute; reflexivity).
  split; [exact H|].
  exact (proj2 (lineIntersection_crossing_symmetric line1 line2) _ H).
Defined.

(** The two orders give two points: both have the x coordinate
    0.6666666666666666, the y coordinates are 0.6666666666666666 and
    0.6666666666666667. *)
Example lineIntersection_orders_differ :
  let line1 := mkLine (Fin 0) (Fin 0) (Fin 1) (Fin 1) in
  let line2 := mkLine (Fin 0) (Fin 1) (Fin 2) (Fin 0) in
  Rounded.lineIntersection line2 line1
  = Some (mkPoint (Fin (6004799503160661 # 9007199254740992))
                  (Fin (3002399751580331 # 4503599627370496))).
Proof. vm_compute. reflexivity. Qed.

(** ** How far the point is from the first segment *)

Lemma finite_line_Fin (line : ILine) :
  finite_line line = true ->
  exists a1 b1 a2 b2 : Q, line = mkLine (Fin a1) (Fin b1) (Fin a2) (Fin b2).
Proof.
  destruct line as [[a1| | |] [b1| | |] [a2| | |] [b2| | |]];
    try discriminate.
  intros _. now exists a1, b1, a2, b2.
Qed.

Lemma rounding_bound_nonneg (a b : Q) : (0 <= rounding_bound a b)%Q.
Proof.
  unfold rounding_bound.
  pose proof (pow2_pos (-50)). pose proof (pow2_pos (-1073)).
  pose proof (Qabs_nonneg a). pose proof (Qabs_nonneg b).
  assert (0 <= Double.pow2 (-50) * (Qabs a + Qabs b))%Q
    by (apply Qmult_le_0_compat; lra).
  lra.
Qed.

Lemma rounded_pointAt_near (line1 : ILine) (t : Q) :
  finite_line line1 = true -> (0 <= t <= 1)%Q ->
  near_segment line1 t (Rounded.pointAt line1 (Fin t)).
Proof.
  intros F Ht.
  destruct (finite_line_Fin _ F) as (a1 & b1 & a2 & b2 & ->).
  exists a1, b1, a2, b2. split; [reflexivity|]. split.
  - intros X HX. apply interpolation_error; [exact Ht|exact HX].
  - intros Y HY. apply interpolation_error; [exact Ht|exact HY].
Qed.

(** X21.  The point that [lineIntersection] returns is, up to the rounding,
    a point of [line1]: with the parameter [t] that the function has
    computed, which lies between 0 and 1, each finite coordinate of the point
    differs from the start of [line1] moved by [t] times the direction of
    [line1] by at most [2 ^ -50] times the sum of the absolute values of the
    two ends, and [2 ^ -1073]. *)
Theorem lineIntersection_near_line1 (line1 line2 : ILine) (p : Point) :
  Rounded.lineIntersection line1 line2 = Some p ->
  exists t : Q,
    Rounded.paramT line1 line2 = Fin t /\
    (0 <= t <= 1)%Q /\
    near_segment line1 t p.
Proof.
  intros H.
  destruct (rounded_lineIntersection_finite _ _ _ H) as [F1 _].
  apply rounded_lineIntersection_iff in H.
  destruct H as (s & t & _ & Et & _ & Ht & ->).
  exists t. repeat split; try assumption; try tauto.
  now apply rounded_pointAt_near.
Qed.

Lemma lineIntersection_near_line1_witness :
  let line1 := mkLine (Fin 0) (Fin 0) (Fin 1) (Fin 1) in
  let line2 := mkLine (Fin 0) (Fin 1) (Fin 2) (Fin 0) in
  let p := mkPoint (Fin (6004799503160661 # 9007199254740992))
                   (Fin (6004799503160661 # 9007199254740992)) in
  Rounded.lineIntersection line1 line2 = Some p /\
  exists t : Q,
    Rounded.paramT line1 line2 = Fin t /\
    (0 <= t <= 1)%Q /\
    near_segment line1 t p.
Proof.
  intros line1 line2 p.
  assert (H : Rounded.lineIntersection line1 line2 = Some p)
    by (vm_compute; reflexivity).
  split; [exact H|].
  exact (lineIntersection_near_line1 line1 line2 p H).
Defined.

(** ** Where [endCoordinate] puts the end of a line *)

Lemma rounded_endCoordinate_rule (horizontal : bool)
    (source target : IATNGraphLayoutNode) (labels : list Label.t) :
  Node.type target = ATNRuleType ->
  Rounded.endCoordinate horizontal
    (Link.mk (RefNode source) (RefNode target) labels) =
  match Rounded.firstIntersection (centerLine source target)
                                  (Rounded.rectEdges target) with
  | Some p => coordinate horizontal p
  | None => coordinate horizontal (targetCenter target)
  end.
Proof.
  intros Htype.
  unfold Rounded.endCoordinate, Rounded.rectEdges, centerLine,
    Rounded.firstIntersection.
  cbn [Link.source Link.target].
  rewrite Htype, Z.eqb_refl.
  repeat (destruct (Rounded.lineIntersection _ _); [reflexivity|]).
  destruct horizontal; reflexivity.
Qed.

Lemma rounded_clipPoint_rule (source target : IATNGraphLayoutNode)
    (labels : list Label.t) :
  Node.type target = ATNRuleType ->
  Rounded.clipPoint (Link.mk (RefNode source) (RefNode target) labels) =
  match Rounded.firstIntersection (centerLine source target)
                                  (Rounded.rectEdges target) with
  | Some p => p
  | None => targetCenter target
  end.
Proof.
  intros Hrule. unfold Rounded.clipPoint.
  rewrite !rounded_endCoordinate_rule by exact Hrule.
  destruct (Rounded.firstIntersection _ _) as [[a b]|]; reflexivity.
Qed.

Lemma rounded_firstIntersection_Some (line1 : ILine) (edges : list ILine)
    (p : Point) :
  Rounded.firstIntersection line1 edges = Some p <->
  exists i edge,
    nth_error edges i = Some edge /\
    (forall j e, (j < i)%nat -> nth_error edges j = Some e ->
                 Rounded.lineIntersection line1 e = None) /\
    Rounded.lineIntersection line1 edge = Some p.
Proof.
  revert p. induction edges as [|e rest IH]; intros p; cbn.
  - split; [discriminate|]. intros ([|i] & edge & H & _); discriminate.
  - destruct (Rounded.lineIntersection line1 e) as [q|] eqn:E.
    + split.
      * intros [= ->]. exists O, e. repeat split; [|exact E].
        intros j e' Hj. lia.
      * intros ([|i] & edge & Hn & Hbefore & Hp); cbn in Hn.
        -- injection Hn as <-. congruence.
        -- specialize (Hbefore O e (Nat.lt_0_succ i) eq_refl). congruence.
    + rewrite IH. split.
      * intros (i & edge & Hn & Hbefore & Hi).
        exists (S i), edge. repeat split; [exact Hn| |exact Hi].
        intros [|j] e' Hj Hn'; cbn in Hn'.
        -- now injection Hn' as <-.
        -- apply (Hbefore j); [lia|exact Hn'].
      * intros ([|i] & edge & Hn & Hbefore & Hp); cbn in Hn.
        -- injection Hn as <-. congruence.
        -- exists i, edge. repeat split; [exact Hn| |exact Hp].
           intros j e' Hj Hn'. apply (Hbefore (S j)); [lia|exact Hn'].
Qed.





(** The rounding can also make all four tests fail for a source that lies
    outside the rectangle: from (94.1, 66.1) to the rule node at (0.1, 16.1)
    of width 94 the line goes through a corner of the rectangle, the
    parameters come out just above 1, and the line ends at the center. *)
Example endCoordinate_corner_missed :
  let source := basic_at (Double.dec 941 1) (Double.dec 661 1) in
  let target := rule_at (Double.dec 1 1) (Double.dec 161 1) (Fin 94) in
  Rounded.clipPoint (Link.mk (RefNode source) (RefNode target) [])
    = targetCenter target /\
  Rounded.paramS (centerLine source target)
                 (nth 1 (Rounded.rectEdges target) (mkLine NaN NaN NaN NaN))
    = Fin (4503599627370497 # 4503599627370496).
Proof. split; vm_compute; reflexivity. Qed.

(** X22.  The line of a link to a rule node ends, up to the rounding, on
    the segment between the centers of the two nodes: at the parameter that
    [lineIntersection] has computed for the edge that is used, or at the
    center of the target, which is the parameter 1. *)
Theorem clip_near_center_line
    (source target : IATNGraphLayoutNode) (labels : list Label.t) :
  Node.type target = ATNRuleType ->
  finite_line (centerLine source target) = true ->
  exists t : Q,
    (0 <= t <= 1)%Q /\
    near_segment (centerLine source target) t
      (Rounded.clipPoint (Link.mk (RefNode source) (RefNode target) labels)).
Proof.
  intros Hrule F. rewrite (rounded_clipPoint_rule _ _ _ Hrule).
  destruct (Rounded.firstIntersection _ _) as [p|] eqn:E.
  - apply rounded_firstIntersection_Some in E.
    destruct E as (i & edge & _ & _ & Hp).
    apply rounded_lineIntersection_iff in Hp.
    destruct Hp as (s & t & _ & _ & _ & Ht & ->).
    exists t. split; [exact Ht|]. now apply rounded_pointAt_near.
  - exists 1%Q. split; [split; discriminate|].
    destruct (finite_line_Fin _ F) as (a1 & b1 & a2 & b2 & El).
    exists a1, b1, a2, b2. split; [exact El|].
    unfold centerLine in El. injection El as _ _ Ex Ey.
    unfold targetCenter. cbn [px py]. rewrite Ex, Ey. split.
    + intros X [= <-]. apply Qabs_le_intro.
      pose proof (rounding_bound_nonneg a1 a2). lra.
    + intros Y [= <-]. apply Qabs_le_intro.
      pose proof (rounding_bound_nonneg b1 b2). lra.
Qed.

Lemma clip_near_center_line_witness :
  Node.type rule_far = ATNRuleType /\
  finite_line (centerLine basic_at_origin rule_far) = true /\
  exists t : Q,
    (0 <= t <= 1)%Q /\
    near_segment (centerLine basic_at_origin rule_far) t
      (Rounded.clipPoint
         (Link.mk (RefNode basic_at_origin) (RefNode rule_far) [])).
Proof.
  split; [reflexivity|]. split; [reflexivity|].
  apply (clip_near_center_line basic_at_origin rule_far []); reflexivity.
Defined.

(** ** The labels of the links *)

Lemma labelPlacement_upright (q : Q) :
  -180 <= q <= 180 ->
  exists r turn : Q,
    fst (Rounded.labelPlacement (Fin q)) = Fin r /\
    (turn = 0 \/ turn = 360) /\
    -45 <= r - turn <= 45 /\
    (snd (Rounded.labelPlacement (Fin q)) = (Fin 0, Fin 0) \/
     snd (Rounded.labelPlacement (Fin q)) = (Fin 10, Fin 0) \/
     snd (Rounded.labelPlacement (Fin q)) = (Fin 10, Fin (-10))).
Proof.
  intros Hq. unfold Rounded.labelPlacement, gtb, geb, ltb, leb.
  destruct (Qle_bool q (-45)) eqn:E1; cbn [negb andb].
  - apply Qle_bool_iff in E1.
    destruct (Qle_bool (-135) q) eqn:E2; cbn [negb orb].
    + apply Qle_bool_iff in E2.
      destruct (Qle_bool q 135) eqn:E3; cbn [negb orb].
      * rewrite orb_true_r. cbn [fst snd].
        exists 0, 0. repeat split; try (now left); try lra. tauto.
      * assert (~ q <= 135) by (intros C; apply Qle_bool_iff in C; congruence).
        lra.
    + assert (~ -135 <= q) by (intros C; apply Qle_bool_iff in C; congruence).
      cbn [fst snd]. unfold Double.add. cbn [add Double.rn].
      destruct (rnd_between 0 45 (q + 180)) as (r & -> & Hr); try lia.
      { change (inject_Z 0) with 0. change (inject_Z 45) with 45. lra. }
      change (inject_Z 0) with 0 in Hr. change (inject_Z 45) with 45 in Hr.
      exists r, 0. repeat split; try (now left); try lra. tauto.
  - assert (H1 : ~ q <= -45) by (intros C; apply Qle_bool_iff in C; congruence).
    destruct (Qle_bool 45 q) eqn:E2; cbn [negb andb].
    + apply Qle_bool_iff in E2.
      destruct (Qle_bool (-135) q) eqn:E3; cbn [negb orb].
      * destruct (Qle_bool q 135) eqn:E4; cbn [negb orb fst snd].
        -- exists 0, 0. repeat split; try (now left); try lra. tauto.
        -- assert (~ q <= 135) by (intros C; apply Qle_bool_iff in C; congruence).
           unfold Double.add. cbn [add Double.rn].
           destruct (rnd_between 315 360 (q + 180)) as (r & -> & Hr); try lia.
           { change (inject_Z 315) with 315. change (inject_Z 360) with 360. lra. }
           change (inject_Z 315) with 315 in Hr. change (inject_Z 360) with 360 in Hr.
           exists r, 360. repeat split; try (now right); try lra. tauto.
      * assert (~ -135 <= q) by (intros C; apply Qle_bool_iff in C; congruence).
        lra.
    + assert (~ 45 <= q) by (intros C; apply Qle_bool_iff in C; congruence).
      cbn [fst snd]. exists q, 0. repeat split; try (now left); try lra.
Qed.

(** X19.  The label of a link is never turned upside down: when the slope
    of the link is a finite angle between -180 and 180 degrees, the rotation
    of the label is at most 45 degrees away from the horizontal, a full turn
    left aside, and the offset is (0, 0), (10, 0) or (10, -10).  When the
    slope is [NaN], the label is neither rotated nor offset. *)
Theorem transformLinkLabel_upright
    (atan2 : number -> number -> number) (link : IATNLink) :
  (forall q : Q,
      Rounded.linkSlope atan2 link = Fin q -> -180 <= q <= 180 ->
      exists r turn : Q,
        rotate (Rounded.transformLinkLabel atan2 link) = Fin r /\
        (turn = 0 \/ turn = 360) /\
        -45 <= r - turn <= 45 /\
        (offset (Rounded.transformLinkLabel atan2 link) = (Fin 0, Fin 0) \/
         offset (Rounded.transformLinkLabel atan2 link) = (Fin 10, Fin 0) \/
         offset (Rounded.transformLinkLabel atan2 link) = (Fin 10, Fin (-10))))
  /\
  (Rounded.linkSlope atan2 link = NaN ->
   rotate (Rounded.transformLinkLabel atan2 link) = Fin 0 /\
   offset (Rounded.transformLinkLabel atan2 link) = (Fin 0, Fin 0)).
Proof.
  unfold Rounded.transformLinkLabel. cbn [rotate offset]. split.
  - intros q -> Hq. now apply labelPlacement_upright.
  - intros ->. split; reflexivity.
Qed.

(** The bound of 45 degrees is reached: the slope 135.00000000000003 plus
    180 is 315 after the rounding. *)
Example labelPlacement_45_off :
  Double.dec 13500000000000003 14 = Fin (4749890231992321 # 35184372088832) /\
  Rounded.labelPlacement (Double.dec 13500000000000003 14) = (Fin 315, (Fin 10, Fin 0)).
Proof. split; vm_compute; reflexivity. Qed.

Lemma transformLinkLabel_upright_witness :
  let link := Link.mk (RefNode basic_at_origin) (RefNode rule_far) [] in
  Rounded.linkSlope axis_atan2 link = Fin 0 /\
  exists r turn : Q,
    rotate (Rounded.transformLinkLabel axis_atan2 link) = Fin r /\
    (turn = 0 \/ turn = 360) /\
    -45 <= r - turn <= 45 /\
    (offset (Rounded.transformLinkLabel axis_atan2 link) = (Fin 0, Fin 0) \/
     offset (Rounded.transformLinkLabel axis_atan2 link) = (Fin 10, Fin 0) \/
     offset (Rounded.transformLinkLabel axis_atan2 link) = (Fin 10, Fin (-10))).
Proof.
  intros link. split; [vm_compute; reflexivity|].
  apply (proj1 (transformLinkLabel_upright axis_atan2 link) 0).
  - vm_compute. reflexivity.
  - split; discriminate.
Defined.

Lemma anchor_of_transformLinkLabel
    (atan2 : number -> number -> number)
    (source target : IATNGraphLayoutNode) (labels : list Label.t) :
  anchor (Rounded.transformLinkLabel atan2
            (Link.mk (RefNode source) (RefNode target) labels))
  = (((coalesce (Node.x target) (Fin 0) -^ Rounded.halfExtent target)
      +^ (coalesce (Node.x source) (Fin 0) +^ Rounded.halfExtent source)) /^ Fin 2,
     (coalesce (Node.y target) (Fin 0) +^ coalesce (Node.y source) (Fin 0))
     /^ Fin 2).
Proof.
  unfold Rounded.transformLinkLabel, Rounded.halfExtent. cbn [anchor Link.source Link.target].
  destruct (width_truthy (Node.width source)),
           (width_truthy (Node.width target)); reflexivity.
Qed.

(** X20.  Between two nodes of the same extent (both without a width, or
    both with the same width) and with finite centers, the label of a link
    is anchored, up to the rounding, half way between the two centers,
    whatever the slope: the error is at most [2 ^ -52] times the sum of the
    absolute values that enter the computation, and [2 ^ -1073]. *)
Theorem transformLinkLabel_anchor
    (atan2 : number -> number -> number)
    (source target : IATNGraphLayoutNode) (labels : list Label.t)
    (sx sy tx ty h ax ay : Q) :
  coalesce (Node.x source) (Fin 0) = Fin sx ->
  coalesce (Node.y source) (Fin 0) = Fin sy ->
  coalesce (Node.x target) (Fin 0) = Fin tx ->
  coalesce (Node.y target) (Fin 0) = Fin ty ->
  Rounded.halfExtent source = Fin h ->
  Rounded.halfExtent target = Fin h ->
  anchor (Rounded.transformLinkLabel atan2
            (Link.mk (RefNode source) (RefNode target) labels))
  = (Fin ax, Fin ay) ->
  Qabs (ax - (sx + tx) / 2)
  <= Double.pow2 (-52) * (Qabs sx + Qabs tx + 2 * Qabs h)
     + Double.pow2 (-1073)
  /\
  Qabs (ay - (sy + ty) / 2)
  <= Double.pow2 (-52) * (Qabs sy + Qabs ty) + Double.pow2 (-1073).
Proof.
  intros Hsx Hsy Htx Hty Hs Ht.
  rewrite anchor_of_transformLinkLabel, Hsx, Hsy, Htx, Hty, Hs, Ht.
  intros [= Hx Hy]. split.
  - now apply middle_error.
  - now apply half_sum_error.
Qed.

Lemma transformLinkLabel_anchor_witness :
  anchor (Rounded.transformLinkLabel axis_atan2
            (Link.mk (RefNode basic_at_origin) (RefNode stop_right) []))
  = (Fin 50, Fin 20) /\
  Qabs (50 - (0 + 100) / 2)
  <= Double.pow2 (-52) * (Qabs 0 + Qabs 100 + 2 * Qabs 25)
     + Double.pow2 (-1073)
  /\
  Qabs (20 - (0 + 40) / 2)
  <= Double.pow2 (-52) * (Qabs 0 + Qabs 40) + Double.pow2 (-1073).
Proof.
  split; [vm_compute; reflexivity|].
  apply (transformLinkLabel_anchor axis_atan2 basic_at_origin stop_right []
           0 0 100 40 25 50 20); vm_compute; reflexivity.
Defined.

(** The anchor need not be the double nearest to the middle: between the
    centers 0.1 and 0.2 it is 0.15000000000000036, and the rounded half of
    their sum is 0.15000000000000002. *)
Example label_anchor_rounded :
  fst (anchor (Rounded.transformLinkLabel axis_atan2
                 (Link.mk (RefNode (basic_at (Double.dec 1 1) (Fin 0)))
                          (RefNode (basic_at (Double.dec 2 1) (Fin 0))) [])))
  = Double.dec 15000000000000036 17.
Proof. vm_compute. reflexivity. Qed.

Example half_of_doubles :
  (Double.dec 1 1 +^ Double.dec 2 1) /^ Fin 2 = Double.dec 15000000000000002 17.
Proof. vm_compute. reflexivity. Qed.
